(** * dsc40graph: undirected and directed graph containers

    A shallow embedding of [dsc40graph.py].  Python dictionaries are stdpp
    finite maps, Python sets are stdpp finite sets, the integer edge counter is
    a [Z], and a method that can raise is a computation that returns either an
    exception or a value together with the state it leaves behind, so that a
    mutation done before a [raise] stays visible.

    The order in which Python walks a dictionary or a set is replaced by the
    enumeration order of [map_to_list] and [elements]. *)

From Stdlib Require Import ZArith.
From stdpp Require Import gmap fin_maps fin_sets list strings pretty.

Local Open Scope Z_scope.

(** ** Exceptions and computations *)

(** The exception classes the module can let escape: its own
    [DoesNotExistError], and the builtins [ValueError], [KeyError],
    [RuntimeError] (a set changed while it is being iterated) and
    [StopIteration] (an exhausted iterator). *)
Inductive exn : Type :=
  | DoesNotExistError
  | ValueError
  | KeyError
  | RuntimeError
  | StopIteration.

#[global] Instance exn_eq_dec : EqDecision exn.
Proof. solve_decision. Defined.

(** A method body over a receiver of type [S]. *)
Definition Exec (S A : Type) : Type := S → (exn + A) * S.

#[global] Instance Exec_ret {S} : MRet (Exec S) := λ A a s, (inr a, s).

#[global] Instance Exec_bind {S} : MBind (Exec S) := λ A B f m s,
  match m s with
  | (inr a, s') => f a s'
  | (inl e, s') => (inl e, s')
  end.

Definition raise {S A} (e : exn) : Exec S A := λ s, (inl e, s).

Definition gets {S A} (f : S → A) : Exec S A := λ s, (inr (f s), s).

Definition modify {S} (f : S → S) : Exec S unit := λ s, (inr (), f s).

(** An expression that may raise but does not touch the receiver. *)
Definition of_result {S A} (r : exn + A) : Exec S A := λ s, (r, s).

(** [try: c except e: h] *)
Definition try_except {S A} (c : Exec S A) (e : exn) (h : Exec S A) : Exec S A :=
  λ s, match c s with
       | (inl e', s') => if decide (e' = e) then h s' else (inl e', s')
       | r => r
       end.

(** [for x in xs: body x], over the elements already enumerated. *)
Fixpoint for_ {S A} (xs : list A) (body : A → Exec S unit) : Exec S unit :=
  match xs with
  | [] => mret ()
  | x :: rest => body x ;; for_ rest body
  end.

(** [c] lets no exception escape except those in [P]. *)
Definition raises_only {S A} (P : exn → Prop) (c : Exec S A) : Prop :=
  ∀ s e, (c s).1 = inl e → P e.

(** The builtin [len(x)] for an object whose [__len__] returns [n]: a negative
    result is refused with [ValueError]. *)
Definition builtin_len (n : Z) : exn + Z :=
  if decide (n < 0) then inl ValueError else inr n.

(** ** Dictionaries of sets *)

Section dict.
Context `{Countable L}.

(** [d[k]] *)
Definition dict_getitem (k : L) (d : gmap L (gset L)) : exn + gset L :=
  match d !! k with
  | Some s => inr s
  | None => inl KeyError
  end.

(** [d[k] = set()] *)
Definition dict_new_set (k : L) (d : gmap L (gset L)) : exn + gmap L (gset L) :=
  inr (<[k := ∅]> d).

(** [d[k].add(v)] *)
Definition dict_add (k v : L) (d : gmap L (gset L)) : exn + gmap L (gset L) :=
  match dict_getitem k d with
  | inr s => inr (<[k := {[v]} ∪ s]> d)
  | inl e => inl e
  end.

(** [d[k].discard(v)] *)
Definition dict_discard (k v : L) (d : gmap L (gset L)) : exn + gmap L (gset L) :=
  match dict_getitem k d with
  | inr s => inr (<[k := s ∖ {[v]}]> d)
  | inl e => inl e
  end.

(** [del d[k]] *)
Definition dict_del (k : L) (d : gmap L (gset L)) : exn + gmap L (gset L) :=
  match d !! k with
  | Some _ => inr (delete k d)
  | None => inl KeyError
  end.

(** [_EdgeView.__contains__], on the dictionary the view refers to:
    [u, v = edge; try: return v in self._adj[u]; except KeyError: return False]. *)
Definition edge_contains (d : gmap L (gset L)) (edge : L * L) : exn + bool :=
  let '(u, v) := edge in
  match dict_getitem u d with
  | inr s => inr (bool_decide (v ∈ s))
  | inl KeyError => inr false
  | inl e => inl e
  end.

(** [k in d], also [_NodesView.__contains__] on the keys of [d]. *)
Definition dict_contains (k : L) (d : gmap L (gset L)) : bool :=
  bool_decide (is_Some (d !! k)).

(** [v ∈ d[u]]: the dictionary has an entry for [u] and [v] is in it. *)
Definition adjacent (d : gmap L (gset L)) (u v : L) : Prop :=
  ∃ s, d !! u = Some s ∧ v ∈ s.

(** The effect of [if x not in d: d[x] = set()]. *)
Definition ensure (d : gmap L (gset L)) (x : L) : gmap L (gset L) :=
  if dict_contains x d then d else <[x := ∅]> d.

(** [next(iter(d.keys()))] *)
Definition dict_first_key (d : gmap L (gset L)) : exn + L :=
  match (map_to_list d).*1 with
  | k :: _ => inr k
  | [] => inl StopIteration
  end.

(** [frozenset((u, v))] *)
Definition frozenset_pair (p : L * L) : gset L := {[p.1; p.2]}.

(** [_UndirectedEdgeView.__iter__]: the inner loop over the neighbours of
    [u], threading the set [seen] and the pairs yielded so far. *)
Fixpoint undirected_iter_inner (u : L) (vs : list L)
    (acc : gset (gset L) * list (L * L)) : gset (gset L) * list (L * L) :=
  match vs with
  | [] => acc
  | v :: rest =>
      let edge := frozenset_pair (u, v) in
      if decide (edge ∉ acc.1)
      then undirected_iter_inner u rest ({[edge]} ∪ acc.1, acc.2 ++ [(u, v)])
      else undirected_iter_inner u rest acc
  end.

Fixpoint undirected_iter_outer (items : list (L * gset L))
    (acc : gset (gset L) * list (L * L)) : gset (gset L) * list (L * L) :=
  match items with
  | [] => acc
  | (u, neighbors) :: rest =>
      undirected_iter_outer rest (undirected_iter_inner u (elements neighbors) acc)
  end.

Definition undirected_iter (d : gmap L (gset L)) : list (L * L) :=
  (undirected_iter_outer (map_to_list d) (∅, [])).2.

(** The loop invariant of the undirected iteration: [seen] holds the
    unordered identities of the pairs yielded so far, each of them once. *)
Definition seen_tracks (acc : gset (gset L) * list (L * L)) : Prop :=
  acc.1 = list_to_set (frozenset_pair <$> acc.2) ∧
  NoDup (frozenset_pair <$> acc.2).

(** [_DirectedEdgeView.__iter__] *)
Definition directed_iter (d : gmap L (gset L)) : list (L * L) :=
  '(u, neighbors) ← map_to_list d; v ← elements neighbors; [(u, v)].

(** The edges of an adjacency dictionary up to orientation: the unordered
    identities of the pairs [(u, v)] with [v] in [d[u]]. *)
Definition edge_ids (d : gmap L (gset L)) : gset (gset L) :=
  list_to_set (frozenset_pair <$> directed_iter d).

(** What a public call hands back. *)
Inductive value : Type :=
  | VNone
  | VBool (b : bool)
  | VInt (n : Z)
  | VLabel (l : L)
  | VSet (s : gset L)
  | VLabels (ls : list L)
  | VEdges (es : list (L * L)).
End dict.

Arguments value L {_ _}.

(** ** [class UndirectedGraph(_Graph)] *)

Module UndirectedGraph.
Section defs.
Context `{Countable L}.

(** The receiver: the contents of [self.adj] and [self._number_of_edges]. *)
Record t : Type := mk { adj : gmap L (gset L); number_of_edges : Z }.

Definition __init__ : t := mk ∅ 0.

(** A statement that updates the dictionary [self.adj] in place. *)
Definition on_adj (f : gmap L (gset L) → exn + gmap L (gset L)) : Exec t unit :=
  λ g, match f (adj g) with
       | inr d => (inr (), mk d (number_of_edges g))
       | inl e => (inl e, g)
       end.

(** [self._number_of_edges += k] *)
Definition bump (k : Z) : Exec t unit :=
  modify (λ g, mk (adj g) (number_of_edges g + k)).

(** [_Graph.add_node] *)
Definition add_node (label : L) : Exec t unit :=
  d ← gets adj;
  if negb (dict_contains label d) then on_adj (dict_new_set label) else mret ().

(** [UndirectedGraph.add_edge] *)
Definition add_edge (u_label v_label : L) : Exec t unit :=
  if decide (u_label = v_label) then raise ValueError
  else
    for_ (elements ({[u_label; v_label]} : gset L)) (λ x,
      d ← gets adj;
      if negb (dict_contains x d) then on_adj (dict_new_set x) else mret ());;
    d ← gets adj;
    present ← of_result (edge_contains d (u_label, v_label));
    if negb present then
      on_adj (dict_add u_label v_label);;
      on_adj (dict_add v_label u_label);;
      bump 1
    else mret ().

(** The loop of [remove_node] over the set [self.adj[label]].  A body that
    discards from the very set being walked (the neighbour is [label]
    itself) makes the next step of the iterator raise. *)
Fixpoint remove_node_loop (label : L) (neighbors : list L) : Exec t unit :=
  match neighbors with
  | [] => mret ()
  | neighbor :: rest =>
      on_adj (dict_discard neighbor label);;
      bump (-1);;
      if decide (neighbor = label) then raise RuntimeError
      else remove_node_loop label rest
  end.

(** [UndirectedGraph.remove_node] *)
Definition remove_node (label : L) : Exec t unit :=
  neighbors ← try_except (d ← gets adj; of_result (dict_getitem label d))
                KeyError (raise DoesNotExistError);
  remove_node_loop label (elements neighbors);;
  on_adj (dict_del label).

(** [UndirectedGraph.remove_edge] *)
Definition remove_edge (u_label v_label : L) : Exec t unit :=
  d ← gets adj;
  present ← of_result (edge_contains d (u_label, v_label));
  if negb present then raise DoesNotExistError
  else
    on_adj (dict_discard u_label v_label);;
    on_adj (dict_discard v_label u_label);;
    bump (-1).

(** [UndirectedGraph.neighbors] *)
Definition neighbors (label : L) : Exec t (gset L) :=
  d ← gets adj; of_result (dict_getitem label d).

(** [_Graph.arbitrary_node] *)
Definition arbitrary_node : Exec t L :=
  try_except (d ← gets adj; of_result (dict_first_key d))
    StopIteration (raise DoesNotExistError).

(** The calls a client can make on an undirected graph; the queries on the
    views are made on a view taken at the moment of the call, its length
    through the builtin [len]. *)
Inductive op : Type :=
  | AddNode (label : L)
  | AddEdge (u v : L)
  | RemoveNode (label : L)
  | RemoveEdge (u v : L)
  | Neighbors (label : L)
  | ArbitraryNode
  | NodesContains (label : L)
  | NodesLen
  | EdgesContains (u v : L)
  | EdgesLen
  | NodesIter
  | EdgesIter.

Definition call (o : op) : Exec t (value L) :=
  match o with
  | AddNode l => add_node l;; mret VNone
  | AddEdge u v => add_edge u v;; mret VNone
  | RemoveNode l => remove_node l;; mret VNone
  | RemoveEdge u v => remove_edge u v;; mret VNone
  | Neighbors l => s ← neighbors l; mret (VSet s)
  | ArbitraryNode => l ← arbitrary_node; mret (VLabel l)
  | NodesContains l => d ← gets adj; mret (VBool (dict_contains l d))
  | NodesLen => d ← gets adj; mret (VInt (Z.of_nat (size d)))
  | EdgesContains u v =>
      d ← gets adj; b ← of_result (edge_contains d (u, v)); mret (VBool b)
  | EdgesLen => n ← gets number_of_edges; k ← of_result (builtin_len n); mret (VInt k)
  | NodesIter => d ← gets adj; mret (VLabels (map_to_list d).*1)
  | EdgesIter => d ← gets adj; mret (VEdges (undirected_iter d))
  end.

(** The graphs a client can build: a new graph, then any calls, including
    the ones that raise. *)
Inductive reachable : t → Prop :=
  | reachable_init : reachable __init__
  | reachable_call g o : reachable g → reachable (call o g).2.

(** [(u, v) in self.edges] as a proposition. *)
Definition has_edge (g : t) (u v : L) : Prop :=
  edge_contains (adj g) (u, v) = inr true.

(** [v ∈ adj[u] ⟺ u ∈ adj[v]] *)
Definition symmetric (g : t) : Prop :=
  ∀ u v, adjacent (adj g) u v ↔ adjacent (adj g) v u.

Definition no_self_loops (g : t) : Prop :=
  ∀ u, ¬ adjacent (adj g) u u.

(** The counter is the number of edges, each unordered pair counted once. *)
Definition counted (g : t) : Prop :=
  number_of_edges g = Z.of_nat (size (edge_ids (adj g))).
End defs.
Arguments t L {_ _}.
Arguments op L : clear implicits.
End UndirectedGraph.

(** ** [class DirectedGraph(_Graph)] *)

Module DirectedGraph.
Section defs.
Context `{Countable L}.

(** The receiver: the contents of [self.adj], of [self.back_adj] and
    [self._number_of_edges]. *)
Record t : Type :=
  mk { adj : gmap L (gset L); back_adj : gmap L (gset L); number_of_edges : Z }.

Definition __init__ : t := mk ∅ ∅ 0.

Definition on_adj (f : gmap L (gset L) → exn + gmap L (gset L)) : Exec t unit :=
  λ g, match f (adj g) with
       | inr d => (inr (), mk d (back_adj g) (number_of_edges g))
       | inl e => (inl e, g)
       end.

Definition on_back_adj (f : gmap L (gset L) → exn + gmap L (gset L)) : Exec t unit :=
  λ g, match f (back_adj g) with
       | inr d => (inr (), mk (adj g) d (number_of_edges g))
       | inl e => (inl e, g)
       end.

(** [self._number_of_edges += k] *)
Definition bump (k : Z) : Exec t unit :=
  modify (λ g, mk (adj g) (back_adj g) (number_of_edges g + k)).

(** [_Graph.add_node], inherited as it is: it only knows [self.adj]. *)
Definition add_node (label : L) : Exec t unit :=
  d ← gets adj;
  if negb (dict_contains label d) then on_adj (dict_new_set label) else mret ().

(** [DirectedGraph.add_edge] *)
Definition add_edge (u_label v_label : L) : Exec t unit :=
  for_ (elements ({[u_label; v_label]} : gset L)) (λ x,
    d ← gets adj;
    (if negb (dict_contains x d) then on_adj (dict_new_set x) else mret ());;
    b ← gets back_adj;
    if negb (dict_contains x b) then on_back_adj (dict_new_set x) else mret ());;
  on_adj (dict_add u_label v_label);;
  on_back_adj (dict_add v_label u_label);;
  bump 1.

(** [DirectedGraph.remove_node] *)
Definition remove_node (label : L) : Exec t unit :=
  d ← gets adj;
  if negb (dict_contains label d) then raise DoesNotExistError
  else
    b ← gets back_adj;
    parents ← of_result (dict_getitem label b);
    (if bool_decide (label ∈ parents) then
       on_adj (dict_discard label label);;
       on_back_adj (dict_discard label label);;
       bump (-1)
     else mret ());;
    b ← gets back_adj;
    parents ← of_result (dict_getitem label b);
    for_ (elements parents) (λ parent,
      on_adj (dict_discard parent label);;
      bump (-1));;
    d ← gets adj;
    children ← of_result (dict_getitem label d);
    bump (- Z.of_nat (size children));;
    on_adj (dict_del label).

(** [DirectedGraph.remove_edge] *)
Definition remove_edge (u_label v_label : L) : Exec t unit :=
  d ← gets adj;
  present ← of_result (edge_contains d (u_label, v_label));
  if negb present then raise DoesNotExistError
  else
    on_adj (dict_discard u_label v_label);;
    on_back_adj (dict_discard v_label u_label);;
    bump (-1).

(** [DirectedGraph.predecessors] *)
Definition predecessors (label : L) : Exec t (gset L) :=
  b ← gets back_adj; of_result (dict_getitem label b).

(** [DirectedGraph.successors] *)
Definition successors (label : L) : Exec t (gset L) :=
  d ← gets adj; of_result (dict_getitem label d).

(** [DirectedGraph.neighbors] *)
Definition neighbors (label : L) : Exec t (gset L) := successors label.

(** [_Graph.arbitrary_node] *)
Definition arbitrary_node : Exec t L :=
  try_except (d ← gets adj; of_result (dict_first_key d))
    StopIteration (raise DoesNotExistError).

Inductive op : Type :=
  | AddNode (label : L)
  | AddEdge (u v : L)
  | RemoveNode (label : L)
  | RemoveEdge (u v : L)
  | Predecessors (label : L)
  | Successors (label : L)
  | Neighbors (label : L)
  | ArbitraryNode
  | NodesContains (label : L)
  | NodesLen
  | EdgesContains (u v : L)
  | EdgesLen
  | NodesIter
  | EdgesIter.

Definition call (o : op) : Exec t (value L) :=
  match o with
  | AddNode l => add_node l;; mret VNone
  | AddEdge u v => add_edge u v;; mret VNone
  | RemoveNode l => remove_node l;; mret VNone
  | RemoveEdge u v => remove_edge u v;; mret VNone
  | Predecessors l => s ← predecessors l; mret (VSet s)
  | Successors l => s ← successors l; mret (VSet s)
  | Neighbors l => s ← neighbors l; mret (VSet s)
  | ArbitraryNode => l ← arbitrary_node; mret (VLabel l)
  | NodesContains l => d ← gets adj; mret (VBool (dict_contains l d))
  | NodesLen => d ← gets adj; mret (VInt (Z.of_nat (size d)))
  | EdgesContains u v =>
      d ← gets adj; b ← of_result (edge_contains d (u, v)); mret (VBool b)
  | EdgesLen => n ← gets number_of_edges; k ← of_result (builtin_len n); mret (VInt k)
  | NodesIter => d ← gets adj; mret (VLabels (map_to_list d).*1)
  | EdgesIter => d ← gets adj; mret (VEdges (directed_iter d))
  end.

(** A new graph followed by a list of calls, oldest first. *)
Definition run (calls : list op) : t :=
  foldl (λ g o, (call o g).2) __init__ calls.

Inductive reachable : t → Prop :=
  | reachable_init : reachable __init__
  | reachable_call g o : reachable g → reachable (call o g).2.

Definition has_edge (g : t) (u v : L) : Prop :=
  edge_contains (adj g) (u, v) = inr true.

(** The forward and the reverse mapping describe the same edges. *)
Definition consistent (g : t) : Prop :=
  ∀ u v, adjacent (adj g) u v ↔ adjacent (back_adj g) v u.
End defs.
Arguments t L {_ _}.
Arguments op L : clear implicits.
End DirectedGraph.

(** ** Objects, references and views

    [self.adj] is bound once, in [__init__], to a dictionary object that every
    later statement mutates in place; a view built by the properties [nodes]
    and [edges] keeps a reference to that same object.  The integer
    [self._number_of_edges] is rebound by each [+=] and [-=], and [edges] hands
    the view the integer it holds at that moment. *)

Definition ref := positive.

Module Objects.
Section defs.
Context `{Countable L}.

(** [_EdgeView.__init__(self, adj, number_of_edges)] *)
Record EdgeView : Type := { _adj : ref; _number_of_edges : Z }.

(** [_NodesView.__init__(self, nodes)], with [nodes] the keys view of the
    dictionary at the reference. *)
Record NodesView : Type := { _nodes : ref }.

(** [_EdgeView.__contains__] *)
Definition EdgeView_contains (h : gmap ref (gmap L (gset L))) (self : EdgeView)
    (edge : L * L) : option (exn + bool) :=
  d ← h !! _adj self; Some (edge_contains d edge).

(** [_EdgeView.__len__] *)
Definition EdgeView_len (self : EdgeView) : Z := _number_of_edges self.

(** [_UndirectedEdgeView.__iter__], run to the end. *)
Definition UndirectedEdgeView_iter (h : gmap ref (gmap L (gset L)))
    (self : EdgeView) : option (list (L * L)) :=
  undirected_iter <$> h !! _adj self.

(** [_DirectedEdgeView.__iter__], run to the end. *)
Definition DirectedEdgeView_iter (h : gmap ref (gmap L (gset L)))
    (self : EdgeView) : option (list (L * L)) :=
  directed_iter <$> h !! _adj self.

(** [_NodesView.__contains__] *)
Definition NodesView_contains (h : gmap ref (gmap L (gset L))) (self : NodesView)
    (node : L) : option bool :=
  dict_contains node <$> h !! _nodes self.

(** [_NodesView.__len__] *)
Definition NodesView_len (h : gmap ref (gmap L (gset L))) (self : NodesView)
    : option Z :=
  (λ d, Z.of_nat (size d)) <$> h !! _nodes self.

(** [_NodesView.__iter__], run to the end. *)
Definition NodesView_iter (h : gmap ref (gmap L (gset L))) (self : NodesView)
    : option (list L) :=
  (λ d, (map_to_list d).*1) <$> h !! _nodes self.

(** An [UndirectedGraph] instance: its fields. *)
Record undirected : Type := { u_adj : ref; u_number_of_edges : Z }.

(** [UndirectedGraph()] *)
Definition undirected_new (h : gmap ref (gmap L (gset L)))
    : undirected * gmap ref (gmap L (gset L)) :=
  let r := fresh (dom h) in
  ({| u_adj := r; u_number_of_edges := 0 |}, <[r := ∅]> h).

(** A method of [UndirectedGraph] run on an instance: the dictionary is
    updated where it lives, the counter field is rebound. *)
Definition undirected_method {A} (c : Exec (UndirectedGraph.t L) A)
    (self : undirected) (h : gmap ref (gmap L (gset L)))
    : option ((exn + A) * undirected * gmap ref (gmap L (gset L))) :=
  d ← h !! u_adj self;
  let r := c (UndirectedGraph.mk d (u_number_of_edges self)) in
  Some (r.1,
        {| u_adj := u_adj self;
           u_number_of_edges := UndirectedGraph.number_of_edges r.2 |},
        <[u_adj self := UndirectedGraph.adj r.2]> h).

(** The property [edges]. *)
Definition undirected_edges (self : undirected) : EdgeView :=
  {| _adj := u_adj self; _number_of_edges := u_number_of_edges self |}.

(** The property [nodes]. *)
Definition undirected_nodes (self : undirected) : NodesView :=
  {| _nodes := u_adj self |}.

(** A [DirectedGraph] instance: its fields. *)
Record directed : Type :=
  { d_adj : ref; d_back_adj : ref; d_number_of_edges : Z }.

(** [DirectedGraph()] *)
Definition directed_new (h : gmap ref (gmap L (gset L)))
    : directed * gmap ref (gmap L (gset L)) :=
  let r := fresh (dom h) in
  let h1 := <[r := ∅]> h in
  let b := fresh (dom h1) in
  ({| d_adj := r; d_back_adj := b; d_number_of_edges := 0 |}, <[b := ∅]> h1).

Definition directed_method {A} (c : Exec (DirectedGraph.t L) A)
    (self : directed) (h : gmap ref (gmap L (gset L)))
    : option ((exn + A) * directed * gmap ref (gmap L (gset L))) :=
  d ← h !! d_adj self;
  b ← h !! d_back_adj self;
  let r := c (DirectedGraph.mk d b (d_number_of_edges self)) in
  Some (r.1,
        {| d_adj := d_adj self; d_back_adj := d_back_adj self;
           d_number_of_edges := DirectedGraph.number_of_edges r.2 |},
        <[d_adj self := DirectedGraph.adj r.2]>
          (<[d_back_adj self := DirectedGraph.back_adj r.2]> h)).

Definition directed_edges (self : directed) : EdgeView :=
  {| _adj := d_adj self; _number_of_edges := d_number_of_edges self |}.

Definition directed_nodes (self : directed) : NodesView :=
  {| _nodes := d_adj self |}.
End defs.
End Objects.

(** ** Display

    The [__repr__] methods, over a function [repr] that gives the
    representation of a label. *)

Definition MAX_NODES_DISPLAYED : Z := 20.
Definition MAX_EDGES_DISPLAYED : Z := 10.

(** The loop of [_take] over [enumerate(iterable)], from index [i]. *)
Fixpoint _take_from {A} (i : Z) (xs : list A) (n : Z) : list A :=
  match xs with
  | [] => []
  | x :: rest => if decide (n ≤ i) then [] else x :: _take_from (i + 1) rest n
  end.

(** [_take(iterable, n)], over the elements the iterable yields. *)
Definition _take {A} (iterable : list A) (n : Z) : list A :=
  _take_from 0 iterable n.

Section display.
Context `{Countable L}.
Variable repr : L → string.

(** [sep.join(parts)] *)
Definition join (sep : string) (parts : list string) : string :=
  String.concat sep parts.

(** [_NodesView.__repr__], on the dictionary whose keys the view holds. *)
Definition NodesView_repr (d : gmap L (gset L)) : string :=
  let limit := MAX_NODES_DISPLAYED in
  let over_limit := bool_decide (limit < Z.of_nat (size d)) in
  let nodes_to_print :=
    if over_limit then _take (map_to_list d).*1 MAX_NODES_DISPLAYED
    else (map_to_list d).*1 in
  let suffix : string := if over_limit then "..." else "" in
  let node_string := join ", " (repr <$> nodes_to_print) +:+ suffix in
  "<" +:+ pretty (Z.of_nat (size d)) +:+ " nodes: " +:+ node_string +:+ ">".

(** [repr] of a pair of labels. *)
Definition repr_edge (edge : L * L) : string :=
  "(" +:+ repr edge.1 +:+ ", " +:+ repr edge.2 +:+ ")".

(** [_EdgeView.__repr__], for a view whose iteration yields [edges] and whose
    [__len__] returns [number_of_edges]; [len(self)] is taken twice, for the
    limit and for the text. *)
Definition EdgeView_repr (edges : list (L * L)) (number_of_edges : Z)
    : exn + string :=
  let limit := MAX_EDGES_DISPLAYED in
  match builtin_len number_of_edges with
  | inl e => inl e
  | inr n =>
      let over_limit := bool_decide (limit < n) in
      let edges_to_print :=
        if over_limit then _take edges MAX_EDGES_DISPLAYED else edges in
      let suffix : string := if over_limit then "..." else "" in
      let edges_string := join ", " (repr_edge <$> edges_to_print) +:+ suffix in
      match builtin_len number_of_edges with
      | inl e => inl e
      | inr m => inr ("<" +:+ pretty m +:+ " edges: " +:+ edges_string +:+ ">")
      end
  end.

(** [_Graph.__repr__], for a class of the given name: [len(self.nodes)] is
    the number of keys of [adj], [len(self.edges)] goes through the counter. *)
Definition Graph_repr (class_name : string) (d : gmap L (gset L))
    (number_of_edges : Z) : exn + string :=
  let nodes := Z.of_nat (size d) in
  match builtin_len number_of_edges with
  | inl e => inl e
  | inr m =>
      inr ("<" +:+ class_name +:+ " with " +:+ pretty nodes
           +:+ " nodes and " +:+ pretty m +:+ " edges>")
  end.
End display.

(** ** Statements about a method body

    [hoare P c Q E]: run from a receiver that satisfies [P], the body [c]
    either returns a value [a] and leaves a receiver that satisfies [Q a], or
    raises and leaves a receiver that satisfies [E]. *)
Definition hoare {S A} (P : S → Prop) (c : Exec S A) (Q : A → S → Prop)
    (E : S → Prop) : Prop :=
  ∀ s, P s → match (c s).1 with
             | inr a => Q a (c s).2
             | inl _ => E (c s).2
             end.

Section directed_shape.
Context `{Countable L}.

(** Every edge of [adj] is recorded in [back_adj]: [v] in [adj[u]] implies
    [u] in [back_adj[v]]. *)
Definition recorded (g : DirectedGraph.t L) : Prop :=
  ∀ u v, adjacent (DirectedGraph.adj g) u v → adjacent (DirectedGraph.back_adj g) v u.

(** Every edge of [adj] ends in a node. *)
Definition closed (g : DirectedGraph.t L) : Prop :=
  ∀ u v, adjacent (DirectedGraph.adj g) u v → is_Some (DirectedGraph.adj g !! v).
End directed_shape.

(** * Properties *)

(** ** Computations *)

Lemma bind_ret_state {S A B} (c : Exec S A) (f : A → B) (s : S) :
  ((x ← c; mret (f x)) s).2 = (c s).2.
Proof. unfold mbind, Exec_bind. by destruct (c s) as [[e|a] s']. Qed.

Lemma bind_ret_raises {S A B} (c : Exec S A) (f : A → B) (s : S) e :
  ((x ← c; mret (f x)) s).1 = inl e ↔ (c s).1 = inl e.
Proof.
  unfold mbind, Exec_bind. destruct (c s) as [[e'|a] s']; simpl;
    split; intros [=]; by subst.
Qed.

Lemma bind_inr {S A B} (c : Exec S A) (f : A → Exec S B) (s s' : S) (a : A) :
  c s = (inr a, s') → (c ≫= f) s = f a s'.
Proof. intros Hc. unfold mbind, Exec_bind. by rewrite Hc. Qed.

Lemma bind_inl {S A B} (c : Exec S A) (f : A → Exec S B) (s s' : S) (e : exn) :
  c s = (inl e, s') → (c ≫= f) s = (inl e, s').
Proof. intros Hc. unfold mbind, Exec_bind. by rewrite Hc. Qed.

Section raises_only_facts.
Context {S : Type}.
Implicit Types P Q : exn → Prop.

Lemma raises_only_weaken {A} P Q (c : Exec S A) :
  (∀ e, P e → Q e) → raises_only P c → raises_only Q c.
Proof. intros HPQ Hc s e He. eauto. Qed.

Lemma raises_only_ret {A} P (a : A) : raises_only P (mret a : Exec S A).
Proof. by intros s e. Qed.

Lemma raises_only_gets {A} P (f : S → A) : raises_only P (gets f).
Proof. by intros s e. Qed.

Lemma raises_only_modify P (f : S → S) : raises_only P (modify f).
Proof. by intros s e. Qed.

Lemma raises_only_raise {A} P e : P e → raises_only P (raise e : Exec S A).
Proof. intros He s e' [= <-]. done. Qed.

Lemma raises_only_of_result {A} P (r : exn + A) :
  (∀ e, r = inl e → P e) → raises_only P (of_result r : Exec S A).
Proof. intros Hr s e He. by apply Hr. Qed.

Lemma raises_only_bind {A B} P (c : Exec S A) (f : A → Exec S B) :
  raises_only P c → (∀ a, raises_only P (f a)) → raises_only P (c ≫= f).
Proof.
  intros Hc Hf s e. unfold mbind, Exec_bind.
  destruct (c s) as [[e'|a] s'] eqn:E.
  - intros [= <-]. apply (Hc s). by rewrite E.
  - apply Hf.
Qed.

Lemma raises_only_for {A} P (xs : list A) (body : A → Exec S unit) :
  (∀ x, raises_only P (body x)) → raises_only P (for_ xs body).
Proof.
  intros Hbody. induction xs as [|x xs IH]; simpl.
  - apply raises_only_ret.
  - apply raises_only_bind; [apply Hbody|done].
Qed.

Lemma raises_only_try_except {A} P (c h : Exec S A) e0 :
  raises_only (λ e, e = e0 ∨ P e) c → raises_only P h →
  raises_only P (try_except c e0 h).
Proof.
  intros Hc Hh s e. unfold try_except.
  destruct (c s) as [[e'|a] s'] eqn:E; [|done].
  destruct (decide (e' = e0)) as [->|Hne].
  - apply Hh.
  - intros [= <-]. destruct (Hc s e') as [?|?]; [by rewrite E|done|done].
Qed.

Lemma raises_only_if {A} P (b : bool) (c1 c2 : Exec S A) :
  raises_only P c1 → raises_only P c2 → raises_only P (if b then c1 else c2).
Proof. by destruct b. Qed.
End raises_only_facts.

(** ** Dictionaries of sets *)

Section dict_facts.
Context `{Countable L}.
Implicit Types (d : gmap L (gset L)) (s : gset L) (u v a b k x : L).

Lemma edge_contains_bool d u v :
  ∃ b : bool, edge_contains d (u, v) = inr b ∧ (b = true ↔ adjacent d u v).
Proof.
  unfold edge_contains, dict_getitem, adjacent.
  destruct (d !! u) as [s|] eqn:E.
  - exists (bool_decide (v ∈ s)). split; [done|].
    rewrite bool_decide_eq_true. naive_solver.
  - exists false. split; [done|]. naive_solver.
Qed.

Lemma edge_contains_true d u v :
  edge_contains d (u, v) = inr true ↔ adjacent d u v.
Proof.
  destruct (edge_contains_bool d u v) as (b & -> & Hb). rewrite <- Hb.
  split; [by intros [= ->]|by intros ->].
Qed.

Lemma edge_contains_false d u v :
  edge_contains d (u, v) = inr false ↔ ¬ adjacent d u v.
Proof.
  destruct (edge_contains_bool d u v) as (b & -> & Hb). rewrite <- Hb.
  destruct b; naive_solver.
Qed.

Lemma dict_contains_true k d : dict_contains k d = true ↔ is_Some (d !! k).
Proof. unfold dict_contains. by rewrite bool_decide_eq_true. Qed.

Lemma dict_contains_false k d : dict_contains k d = false ↔ d !! k = None.
Proof.
  unfold dict_contains. rewrite bool_decide_eq_false. symmetry. apply eq_None_not_Some.
Qed.

Lemma dict_getitem_raises k d e : dict_getitem k d = inl e → e = KeyError.
Proof. unfold dict_getitem. destruct (d !! k); naive_solver. Qed.

Lemma dict_add_raises k v d e : dict_add k v d = inl e → e = KeyError.
Proof. unfold dict_add, dict_getitem. destruct (d !! k); naive_solver. Qed.

Lemma dict_discard_raises k v d e : dict_discard k v d = inl e → e = KeyError.
Proof. unfold dict_discard, dict_getitem. destruct (d !! k); naive_solver. Qed.

Lemma dict_del_raises k d e : dict_del k d = inl e → e = KeyError.
Proof. unfold dict_del. destruct (d !! k); naive_solver. Qed.

Lemma dict_new_set_raises k d e : dict_new_set k d = inl e → False.
Proof. done. Qed.

Lemma dict_first_key_raises d e : dict_first_key d = inl e → e = StopIteration.
Proof. unfold dict_first_key. destruct ((map_to_list d).*1); naive_solver. Qed.

Lemma edge_contains_raises d u v e : edge_contains d (u, v) = inl e → False.
Proof. by destruct (edge_contains_bool d u v) as (b & -> & _). Qed.

Lemma adjacent_key d u v : adjacent d u v → is_Some (d !! u).
Proof. intros (s & ? & _). eauto. Qed.

Lemma adjacent_add d k v s a b :
  d !! k = Some s →
  adjacent (<[k := {[v]} ∪ s]> d) a b ↔ adjacent d a b ∨ (a = k ∧ b = v).
Proof.
  intros Hk. unfold adjacent. destruct (decide (a = k)) as [->|Hne].
  - rewrite lookup_insert_eq. split.
    + intros (? & [= <-] & Hin). set_solver.
    + intros [(s' & Hs' & Hin)|[_ ->]]; eexists; (split; [done|]); set_solver.
  - rewrite lookup_insert_ne by done. naive_solver.
Qed.

Lemma adjacent_discard d k v s a b :
  d !! k = Some s →
  adjacent (<[k := s ∖ {[v]}]> d) a b ↔ adjacent d a b ∧ ¬ (a = k ∧ b = v).
Proof.
  intros Hk. unfold adjacent. destruct (decide (a = k)) as [->|Hne].
  - rewrite lookup_insert_eq. split.
    + intros (? & [= <-] & Hin). set_solver.
    + intros [(s' & Hs' & Hin) Hn]. exists (s ∖ {[v]}). split; [done|].
      assert (s' = s) as -> by congruence. set_solver.
  - rewrite lookup_insert_ne by done. naive_solver.
Qed.

Lemma adjacent_new_set d k a b :
  d !! k = None → adjacent (<[k := ∅]> d) a b ↔ adjacent d a b.
Proof.
  intros Hk. unfold adjacent. destruct (decide (a = k)) as [->|Hne].
  - rewrite lookup_insert_eq, Hk. split; [|naive_solver].
    intros (? & [= <-] & Hin). set_solver.
  - by rewrite lookup_insert_ne.
Qed.

Lemma adjacent_ensure d x a b : adjacent (ensure d x) a b ↔ adjacent d a b.
Proof.
  unfold ensure. destruct (dict_contains x d) eqn:E; [done|].
  apply adjacent_new_set. by apply dict_contains_false.
Qed.

Lemma adjacent_delete d k a b :
  adjacent (delete k d) a b ↔ adjacent d a b ∧ a ≠ k.
Proof.
  unfold adjacent. destruct (decide (a = k)) as [->|Hne].
  - rewrite lookup_delete_eq. naive_solver.
  - rewrite lookup_delete_ne by done. naive_solver.
Qed.

Lemma ensure_key d x k : is_Some (ensure d x !! k) ↔ is_Some (d !! k) ∨ k = x.
Proof.
  unfold ensure. destruct (dict_contains x d) eqn:E.
  - apply dict_contains_true in E. naive_solver.
  - rewrite lookup_insert_is_Some. destruct (decide (x = k)); naive_solver.
Qed.
End dict_facts.

(** ** Undirected graphs *)

(** The loop [for x in {u_label, v_label}] that creates the missing entries. *)
Section ensure_loops.
Context `{Countable L}.
Import UndirectedGraph.
Implicit Types (g : t L) (u v a b k x label : L).

Lemma foldl_ensure_adjacent (l : list L) (d : gmap L (gset L)) a b :
  adjacent (foldl ensure d l) a b ↔ adjacent d a b.
Proof.
  revert d. induction l as [|x l IH]; intros d; simpl; [done|].
  by rewrite IH, adjacent_ensure.
Qed.

Lemma foldl_ensure_key (l : list L) (d : gmap L (gset L)) k :
  is_Some (foldl ensure d l !! k) ↔ is_Some (d !! k) ∨ k ∈ l.
Proof.
  revert d. induction l as [|x l IH]; intros d; simpl.
  - rewrite elem_of_nil. naive_solver.
  - rewrite IH, ensure_key, elem_of_cons. naive_solver.
Qed.

Lemma undirected_ensure_loop (l : list L) g :
  for_ l (λ x, d ← gets adj;
               if negb (dict_contains x d) then on_adj (dict_new_set x)
               else mret ()) g
  = (inr (), mk (foldl ensure (adj g) l) (number_of_edges g)).
Proof.
  revert g. induction l as [|x l IH]; intros [d n]; simpl; [done|].
  unfold mbind, Exec_bind, gets at 1. simpl.
  unfold ensure. destruct (dict_contains x d); simpl; by rewrite IH.
Qed.
End ensure_loops.

Section undirected_add_edge.
Context `{Countable L}.
Import UndirectedGraph.
Implicit Types (g : t L) (u v a b k x label : L).

(** What [add_edge] does on distinct labels, statement by statement. *)
Lemma undirected_add_edge_unfold g u v :
  u ≠ v →
  ∃ d1 su sv,
    d1 = foldl ensure (adj g) (elements ({[u; v]} : gset L)) ∧
    d1 !! u = Some su ∧ d1 !! v = Some sv ∧
    add_edge u v g =
      (inr (), if bool_decide (v ∈ su) then mk d1 (number_of_edges g)
               else mk (<[v := {[u]} ∪ sv]> (<[u := {[v]} ∪ su]> d1))
                       (number_of_edges g + 1)).
Proof.
  intros Hne.
  set (d1 := foldl ensure (adj g) (elements ({[u; v]} : gset L))).
  assert (is_Some (d1 !! u)) as [su Hu].
  { apply foldl_ensure_key. right. apply elem_of_elements. set_solver. }
  assert (is_Some (d1 !! v)) as [sv Hv].
  { apply foldl_ensure_key. right. apply elem_of_elements. set_solver. }
  exists d1, su, sv. split; [done|]. split; [done|]. split; [done|].
  unfold add_edge. rewrite decide_False by done.
  unfold mbind at 1, Exec_bind at 1. rewrite undirected_ensure_loop. fold d1.
  unfold mbind, Exec_bind, gets, of_result, on_adj, bump, modify. simpl.
  unfold dict_getitem, dict_add, dict_getitem. rewrite Hu. simpl.
  destruct (bool_decide (v ∈ su)); simpl; [done|].
  rewrite Hu. simpl. rewrite lookup_insert_ne by done. rewrite Hv. done.
Qed.
End undirected_add_edge.

Section undirected_edge_calls.
Context `{Countable L}.
Import UndirectedGraph.
Implicit Types (g : t L) (u v a b k x label : L).

Lemma undirected_add_edge_adjacent g u v a b :
  u ≠ v →
  (adjacent (adj g) u v → adjacent (adj g) v u) →
  adjacent (adj (add_edge u v g).2) a b
  ↔ adjacent (adj g) a b ∨ (a = u ∧ b = v) ∨ (a = v ∧ b = u).
Proof.
  intros Hne Hsym.
  destruct (undirected_add_edge_unfold g u v Hne) as (d1 & su & sv & Hd1 & Hu & Hv & ->).
  assert (∀ a b, adjacent d1 a b ↔ adjacent (adj g) a b) as Hadj.
  { intros. subst d1. apply foldl_ensure_adjacent. }
  simpl. destruct (bool_decide (v ∈ su)) eqn:E; simpl.
  - apply bool_decide_eq_true in E.
    assert (adjacent (adj g) u v) by (apply Hadj; exists su; done).
    rewrite Hadj. naive_solver.
  - rewrite adjacent_add by (by rewrite lookup_insert_ne).
    rewrite adjacent_add by done. rewrite Hadj. naive_solver.
Qed.

Lemma undirected_add_edge_counter g u v :
  u ≠ v →
  number_of_edges (add_edge u v g).2
  = if edge_contains (adj g) (u, v) is inr true
    then number_of_edges g else number_of_edges g + 1.
Proof.
  intros Hne.
  destruct (undirected_add_edge_unfold g u v Hne) as (d1 & su & sv & Hd1 & Hu & Hv & ->).
  assert (adjacent d1 u v ↔ adjacent (adj g) u v) as Hadj.
  { subst d1. apply foldl_ensure_adjacent. }
  destruct (edge_contains_bool (adj g) u v) as (p & -> & Hp).
  simpl. destruct (bool_decide (v ∈ su)) eqn:E; simpl.
  - apply bool_decide_eq_true in E.
    assert (p = true) as -> by (apply Hp, Hadj; exists su; done). done.
  - apply bool_decide_eq_false in E. destruct p; [|done].
    exfalso. apply E. destruct Hp as [Hp _].
    destruct (proj2 Hadj (Hp eq_refl)) as (s' & Hs' & Hin). congruence.
Qed.

Lemma undirected_add_edge_returns g u v :
  u ≠ v → (add_edge u v g).1 = inr ().
Proof.
  intros Hne.
  by destruct (undirected_add_edge_unfold g u v Hne) as (? & ? & ? & _ & _ & _ & ->).
Qed.

Lemma undirected_add_edge_self g x : add_edge x x g = (inl ValueError, g).
Proof. unfold add_edge. by rewrite decide_True. Qed.

Lemma undirected_add_node_adjacent g label a b :
  adjacent (adj (add_node label g).2) a b ↔ adjacent (adj g) a b.
Proof.
  destruct g as [d n]. unfold add_node, mbind, Exec_bind, gets. simpl.
  destruct (dict_contains label d) eqn:E; simpl; [done|].
  apply adjacent_new_set. by apply dict_contains_false.
Qed.

(** [remove_edge] on an edge that is there in both directions. *)
Lemma undirected_remove_edge_present g u v :
  adjacent (adj g) u v → is_Some (adj g !! v) →
  ∃ d', remove_edge u v g = (inr (), mk d' (number_of_edges g - 1)) ∧
        ∀ a b, adjacent d' a b
               ↔ adjacent (adj g) a b ∧ ¬ (a = u ∧ b = v) ∧ ¬ (a = v ∧ b = u).
Proof.
  intros Huv [sv Hv].
  pose proof Huv as (su & Hu & Hin).
  assert (∃ sv', <[u := su ∖ {[v]}]> (adj g) !! v = Some sv') as [sv' Hv'].
  { destruct (decide (u = v)) as [->|?].
    - rewrite lookup_insert_eq. eauto.
    - rewrite lookup_insert_ne by done. eauto. }
  exists (<[v := sv' ∖ {[u]}]> (<[u := su ∖ {[v]}]> (adj g))). split.
  - unfold remove_edge, mbind, Exec_bind, gets, of_result. cbv beta iota.
    apply edge_contains_true in Huv. rewrite Huv. simpl.
    unfold on_adj, dict_discard, dict_getitem, bump, modify. simpl.
    rewrite Hu. simpl. rewrite Hv'. done.
  - intros a b. rewrite adjacent_discard by done.
    rewrite adjacent_discard by done. naive_solver.
Qed.

Lemma undirected_remove_edge_absent g u v :
  ¬ adjacent (adj g) u v → remove_edge u v g = (inl DoesNotExistError, g).
Proof.
  intros Huv. apply edge_contains_false in Huv.
  unfold remove_edge, mbind, Exec_bind, gets, of_result. cbv beta iota.
  by rewrite Huv.
Qed.
End undirected_edge_calls.

Section undirected_nodes_and_invariant.
Context `{Countable L}.
Import UndirectedGraph.
Implicit Types (g : t L) (u v a b k x label : L).

Lemma undirected_remove_node_absent g label :
  adj g !! label = None → remove_node label g = (inl DoesNotExistError, g).
Proof.
  intros Hk. unfold remove_node, mbind, Exec_bind, try_except, gets, of_result.
  unfold dict_getitem. rewrite Hk. simpl. done.
Qed.

(** The loop, when every neighbour walked is another node of the graph. *)
Lemma undirected_remove_node_loop_spec label (ns : list L) g :
  (∀ x, x ∈ ns → x ≠ label ∧ is_Some (adj g !! x)) →
  ∃ d', remove_node_loop label ns g
        = (inr (), mk d' (number_of_edges g - Z.of_nat (length ns))) ∧
        (∀ a b, adjacent d' a b ↔ adjacent (adj g) a b ∧ ¬ (a ∈ ns ∧ b = label)) ∧
        (∀ k, is_Some (d' !! k) ↔ is_Some (adj g !! k)).
Proof.
  revert g. induction ns as [|x ns IH]; intros g Hns.
  - exists (adj g). destruct g as [d n]. simpl. split; [f_equal; f_equal; lia|].
    split; [|done]. intros a b. rewrite elem_of_nil. naive_solver.
  - destruct (Hns x) as [Hx [sx Hsx]]; [by left|].
    set (g1 := mk (<[x := sx ∖ {[label]}]> (adj g)) (number_of_edges g + -1)).
    destruct (IH g1) as (d' & Hrun & Hadj & Hkeys).
    { intros y Hy. destruct (Hns y) as [? ?]; [by right|]. split; [done|].
      simpl. rewrite lookup_insert_is_Some. destruct (decide (x = y)); eauto. }
    exists d'. split; [|split].
    + simpl. unfold mbind, Exec_bind, on_adj, dict_discard, dict_getitem, bump, modify.
      rewrite Hsx. simpl. rewrite decide_False by done. fold g1.
      rewrite Hrun. simpl. f_equal. f_equal. lia.
    + intros a b. rewrite Hadj. simpl. rewrite adjacent_discard by done.
      rewrite elem_of_cons. naive_solver.
    + intros k. rewrite Hkeys. simpl. rewrite lookup_insert_is_Some.
      destruct (decide (x = k)) as [<-|]; naive_solver.
Qed.

Lemma undirected_remove_node_present g label s :
  symmetric g → no_self_loops g → adj g !! label = Some s →
  ∃ d', remove_node label g
        = (inr (), mk d' (number_of_edges g - Z.of_nat (size s))) ∧
        ∀ a b, adjacent d' a b ↔ adjacent (adj g) a b ∧ a ≠ label ∧ b ≠ label.
Proof.
  intros Hsym Hloop Hk.
  destruct (undirected_remove_node_loop_spec label (elements s) g) as (d' & Hrun & Hadj & Hkeys).
  { intros x Hx. apply elem_of_elements in Hx.
    assert (adjacent (adj g) label x) as Hlx by (exists s; done).
    split.
    - intros ->. by apply (Hloop label).
    - apply Hsym in Hlx. by eapply adjacent_key. }
  assert (is_Some (d' !! label)) as [s' Hs'] by (apply Hkeys; eauto).
  exists (delete label d'). split.
  - unfold remove_node, mbind at 1, Exec_bind at 1.
    unfold try_except, mbind at 1, Exec_bind at 1, gets, of_result, dict_getitem.
    rewrite Hk. unfold mbind, Exec_bind. rewrite Hrun.
    unfold on_adj, dict_del. simpl. rewrite Hs'. done.
  - intros a b. rewrite adjacent_delete, Hadj. split; [|naive_solver].
    intros [[Hab Hn] Ha]. split; [done|]. split; [done|].
    intros ->. apply Hn. split; [|done]. apply elem_of_elements.
    apply Hsym in Hab. destruct Hab as (s0 & Hs0 & Hin). congruence.
Qed.

Lemma undirected_call_state g o :
  (call o g).2 =
    match o with
    | AddNode l => (add_node l g).2
    | AddEdge u v => (add_edge u v g).2
    | RemoveNode l => (remove_node l g).2
    | RemoveEdge u v => (remove_edge u v g).2
    | _ => g
    end.
Proof.
  destruct o as [l|u v|l|u v|l| |l| |u v| | |];
    try apply (bind_ret_state _ (λ _, VNone)); try done.
  - unfold call, neighbors, mbind, Exec_bind, gets, of_result.
    by destruct (dict_getitem l (adj g)).
  - unfold call, arbitrary_node, try_except, mbind, Exec_bind, gets, of_result.
    by destruct (dict_first_key (adj g)) as [[]|].
  - unfold call, mbind, Exec_bind, gets, of_result.
    by destruct (edge_contains (adj g) (u, v)).
  - unfold call, mbind, Exec_bind, gets, of_result.
    by destruct (builtin_len (number_of_edges g)).
Qed.

Lemma undirected_call_invariant g o :
  symmetric g ∧ no_self_loops g →
  symmetric (call o g).2 ∧ no_self_loops (call o g).2.
Proof.
  intros [Hsym Hloop]. rewrite undirected_call_state.
  unfold symmetric, no_self_loops in *.
  destruct o as [l|u v|l|u v|l| |l| |u v| | |]; try done.
  - (* add_node *)
    split; [intros a b|intros a]; rewrite !undirected_add_node_adjacent; auto.
  - (* add_edge *)
    destruct (decide (u = v)) as [->|Hne].
    { rewrite undirected_add_edge_self. done. }
    assert (∀ a b, adjacent (adj (add_edge u v g).2) a b
                   ↔ adjacent (adj g) a b ∨ (a = u ∧ b = v) ∨ (a = v ∧ b = u)) as Hadj.
    { intros. apply undirected_add_edge_adjacent; [done|apply Hsym]. }
    split; [intros a b; rewrite !Hadj; specialize (Hsym a b); naive_solver
           |intros a; rewrite Hadj; specialize (Hloop a); naive_solver].
  - (* remove_node *)
    destruct (adj g !! l) as [s|] eqn:E.
    + destruct (undirected_remove_node_present g l s Hsym Hloop E) as (d' & -> & Hadj).
      simpl. split.
      * intros a b. rewrite !Hadj. specialize (Hsym a b). naive_solver.
      * intros a. rewrite Hadj. specialize (Hloop a). naive_solver.
    + rewrite undirected_remove_node_absent by done. done.
  - (* remove_edge *)
    destruct (edge_contains_bool (adj g) u v) as ([] & Hb & Hadj).
    + assert (adjacent (adj g) u v) as Huv by by apply Hadj.
      destruct (undirected_remove_edge_present g u v Huv) as (d' & -> & Hadj').
      { apply Hsym in Huv. by eapply adjacent_key. }
      simpl. split.
      * intros a b. rewrite !Hadj'. specialize (Hsym a b). naive_solver.
      * intros a. rewrite Hadj'. specialize (Hloop a). naive_solver.
    + rewrite undirected_remove_edge_absent; [done|].
      intros Huv. apply Hadj in Huv. done.
Qed.

Lemma undirected_reachable_invariant g :
  reachable g → symmetric g ∧ no_self_loops g.
Proof.
  induction 1 as [|g o _ IH].
  - split; [intros u v|intros u]; unfold adjacent; simpl;
      setoid_rewrite lookup_empty; naive_solver.
  - by apply undirected_call_invariant.
Qed.
End undirected_nodes_and_invariant.

(** ** Directed graphs *)

Section directed_additions.
Context `{Countable L}.
Import DirectedGraph.
Implicit Types (g : t L) (u v a b k x label : L).

Local Abbreviation ensure_both := (λ x,
    d ← gets adj;
    (if negb (dict_contains x d) then on_adj (dict_new_set x) else mret ());;
    b ← gets back_adj;
    if negb (dict_contains x b) then on_back_adj (dict_new_set x) else mret ()).

Lemma directed_ensure_body x g :
  ensure_both x g
  = (inr (), mk (ensure (adj g) x) (ensure (back_adj g) x) (number_of_edges g)).
Proof.
  destruct g as [d b n]. unfold mbind, Exec_bind, gets, ensure. simpl.
  destruct (dict_contains x d); simpl; by destruct (dict_contains x b).
Qed.

Lemma directed_ensure_loop (l : list L) g :
  for_ l ensure_both g
  = (inr (), mk (foldl ensure (adj g) l) (foldl ensure (back_adj g) l)
                (number_of_edges g)).
Proof.
  revert g. induction l as [|x l IH]; intros g; simpl; [by destruct g|].
  unfold mbind at 1, Exec_bind at 1. rewrite directed_ensure_body.
  by rewrite IH.
Qed.

(** What [add_edge] does, statement by statement: it never looks whether the
    edge is there. *)
Lemma directed_add_edge_unfold g u v :
  ∃ d1 r1 su pv,
    d1 = foldl ensure (adj g) (elements ({[u; v]} : gset L)) ∧
    r1 = foldl ensure (back_adj g) (elements ({[u; v]} : gset L)) ∧
    d1 !! u = Some su ∧ r1 !! v = Some pv ∧
    add_edge u v g =
      (inr (), mk (<[u := {[v]} ∪ su]> d1) (<[v := {[u]} ∪ pv]> r1)
                  (number_of_edges g + 1)).
Proof.
  set (d1 := foldl ensure (adj g) (elements ({[u; v]} : gset L))).
  set (r1 := foldl ensure (back_adj g) (elements ({[u; v]} : gset L))).
  assert (is_Some (d1 !! u)) as [su Hu].
  { apply foldl_ensure_key. right. apply elem_of_elements. set_solver. }
  assert (is_Some (r1 !! v)) as [pv Hv].
  { apply foldl_ensure_key. right. apply elem_of_elements. set_solver. }
  exists d1, r1, su, pv. split; [done|]. split; [done|]. split; [done|]. split; [done|].
  unfold add_edge.
  unfold mbind at 1, Exec_bind at 1. rewrite directed_ensure_loop. fold d1 r1.
  unfold mbind, Exec_bind, on_adj, on_back_adj, bump, modify. simpl.
  unfold dict_add, dict_getitem. rewrite Hu. simpl. rewrite Hv. done.
Qed.

Lemma directed_add_edge_counter g u v :
  (add_edge u v g).1 = inr () ∧
  number_of_edges (add_edge u v g).2 = number_of_edges g + 1.
Proof.
  by destruct (directed_add_edge_unfold g u v) as (? & ? & ? & ? & _ & _ & _ & _ & ->).
Qed.

Lemma directed_run_reachable (calls : list (op L)) : reachable (run calls).
Proof.
  unfold run. generalize (reachable_init (L:=L)).
  generalize (__init__ (L:=L)). induction calls as [|o calls IH]; intros g Hg; simpl.
  - done.
  - apply IH. by constructor.
Qed.

Lemma directed_add_node_back_adj g label :
  back_adj (add_node label g).2 = back_adj g.
Proof.
  destruct g as [d b n]. unfold add_node, mbind, Exec_bind, gets. simpl.
  by destruct (dict_contains label d).
Qed.

Lemma directed_add_node_adj g label :
  adj g !! label = None → adj (add_node label g).2 !! label = Some ∅.
Proof.
  intros Hk. destruct g as [d b n]. simpl in *.
  unfold add_node, mbind, Exec_bind, gets. simpl.
  apply dict_contains_false in Hk. rewrite Hk. simpl. apply lookup_insert_eq.
Qed.
End directed_additions.

Section undirected_errors.
Context `{Countable L}.
Import UndirectedGraph.
Implicit Types (g : t L) (u v a b k x label : L) (e : exn).

Lemma undirected_on_adj_raises (P : exn → Prop) f :
  (∀ d e, f d = inl e → P e) → raises_only P (on_adj (L:=L) f).
Proof.
  intros Hf g e. unfold on_adj. destruct (f (adj g)) as [e'|d] eqn:E; [|done].
  intros [= <-]. eauto.
Qed.

Lemma undirected_remove_node_loop_raises label (ns : list L) :
  raises_only (λ e, e = KeyError ∨ e = RuntimeError) (remove_node_loop label ns).
Proof.
  induction ns as [|x ns IH]; simpl; [apply raises_only_ret|].
  apply raises_only_bind; [|intros _; apply raises_only_bind].
  - apply undirected_on_adj_raises. intros d e He. left. by eapply dict_discard_raises.
  - apply raises_only_modify.
  - intros _. destruct (decide (x = label)); [|done].
    apply raises_only_raise. by right.
Qed.

Lemma undirected_remove_node_raises_present g label s e :
  adj g !! label = Some s →
  (remove_node label g).1 = inl e → e = KeyError ∨ e = RuntimeError.
Proof.
  intros Hk. unfold remove_node, mbind at 1, Exec_bind at 1.
  unfold try_except, mbind at 1, Exec_bind at 1, gets, of_result, dict_getitem.
  rewrite Hk. revert g Hk e. 
  change (∀ g, adj g !! label = Some s →
    ∀ e, ((remove_node_loop label (elements s);; on_adj (dict_del label)) g).1 = inl e
         → e = KeyError ∨ e = RuntimeError).
  intros g _ e. revert g e. apply raises_only_bind.
  - apply undirected_remove_node_loop_raises.
  - intros _. apply undirected_on_adj_raises. intros d e He. left.
    by eapply dict_del_raises.
Qed.

Lemma undirected_remove_edge_raises_present g u v e :
  adjacent (adj g) u v → (remove_edge u v g).1 = inl e → e = KeyError.
Proof.
  intros Huv. apply edge_contains_true in Huv.
  unfold remove_edge, mbind at 1, Exec_bind at 1, gets.
  unfold mbind at 1, Exec_bind at 1, of_result. rewrite Huv. simpl negb. cbv iota.
  revert g Huv e.
  change (∀ g, edge_contains (adj g) (u, v) = inr true →
    ∀ e, ((on_adj (dict_discard u v);; on_adj (dict_discard v u);; bump (-1)) g).1
         = inl e → e = KeyError).
  intros g _ e. revert g e.
  apply raises_only_bind; [|intros _; apply raises_only_bind].
  - apply undirected_on_adj_raises. intros d e. apply dict_discard_raises.
  - apply undirected_on_adj_raises. intros d e. apply dict_discard_raises.
  - intros _. apply raises_only_modify.
Qed.

Lemma undirected_add_node_returns g label : (add_node label g).1 = inr ().
Proof.
  unfold add_node, mbind, Exec_bind, gets. simpl.
  by destruct (dict_contains label (adj g)).
Qed.
End undirected_errors.

(** ** Iterating the edge views *)

Section iteration.
Context `{Countable L}.
Implicit Types (d : gmap L (gset L)) (u v : L) (p : L * L)
  (acc : gset (gset L) * list (L * L)).

Lemma frozenset_pair_eq u v u' v' :
  frozenset_pair (u, v) = frozenset_pair (u', v') →
  (u, v) = (u', v') ∨ (u, v) = (v', u').
Proof.
  unfold frozenset_pair. simpl. intros Heq.
  assert (u ∈ ({[u'; v']} : gset L)) as Hu by (rewrite <- Heq; set_solver).
  assert (v ∈ ({[u'; v']} : gset L)) as Hv by (rewrite <- Heq; set_solver).
  assert (u' ∈ ({[u; v]} : gset L)) as Hu' by (rewrite Heq; set_solver).
  assert (v' ∈ ({[u; v]} : gset L)) as Hv' by (rewrite Heq; set_solver).
  rewrite !elem_of_union, !elem_of_singleton in *.
  destruct Hu, Hv, Hu', Hv'; subst; auto.
Qed.

Lemma seen_tracks_elem acc e :
  seen_tracks acc → e ∈ acc.1 ↔ ∃ p, p ∈ acc.2 ∧ frozenset_pair p = e.
Proof.
  intros [-> _]. rewrite elem_of_list_to_set, list_elem_of_fmap. naive_solver.
Qed.

Lemma seen_tracks_yield acc p :
  seen_tracks acc → frozenset_pair p ∉ acc.1 →
  seen_tracks ({[frozenset_pair p]} ∪ acc.1, acc.2 ++ [p]).
Proof.
  intros [Hseen Hnd] Hnew. split; simpl.
  - rewrite fmap_app, list_to_set_app_L, <- Hseen. simpl. set_solver.
  - rewrite fmap_app. apply NoDup_app. split; [done|]. split.
    + intros e He. simpl. rewrite list_elem_of_singleton. intros ->.
      apply Hnew. rewrite Hseen. by apply elem_of_list_to_set.
    + simpl. apply NoDup_singleton.
Qed.

Lemma undirected_iter_inner_spec u (vs : list L) acc :
  seen_tracks acc →
  seen_tracks (undirected_iter_inner u vs acc) ∧
  (∀ p, p ∈ acc.2 → p ∈ (undirected_iter_inner u vs acc).2) ∧
  (∀ p, p ∈ (undirected_iter_inner u vs acc).2 →
        p ∈ acc.2 ∨ ∃ v, v ∈ vs ∧ p = (u, v)) ∧
  (∀ v, v ∈ vs → frozenset_pair (u, v) ∈ (undirected_iter_inner u vs acc).1).
Proof.
  revert acc. induction vs as [|v vs IH]; intros acc Hacc; simpl.
  - split; [done|]. split; [done|]. split; [by left|].
    intros v Hv. by apply elem_of_nil in Hv.
  - destruct (decide (frozenset_pair (u, v) ∉ acc.1)) as [Hnew|Hold].
    + destruct (IH _ (seen_tracks_yield acc (u, v) Hacc Hnew))
        as (Hinv & Hmono & Hfrom & Hcov).
      simpl in *. split; [done|]. split; [|split].
      * intros p Hp. apply Hmono. apply elem_of_app. by left.
      * intros p Hp. destruct (Hfrom p Hp) as [Hin|(w & Hw & ->)].
        -- apply elem_of_app in Hin as [?|Hin]; [by left|].
           apply list_elem_of_singleton in Hin as ->. right. exists v.
           split; [by left|done].
        -- right. exists w. split; [by right|done].
      * intros w Hw. apply elem_of_cons in Hw as [->|Hw]; [|by apply Hcov].
        apply (seen_tracks_elem _ _ Hinv). exists (u, v). split; [|done].
        apply Hmono. apply elem_of_app. right. by apply list_elem_of_singleton.
    + destruct (IH _ Hacc) as (Hinv & Hmono & Hfrom & Hcov).
      split; [done|]. split; [done|]. split.
      * intros p Hp. destruct (Hfrom p Hp) as [?|(w & Hw & ->)]; [by left|].
        right. exists w. split; [by right|done].
      * intros w Hw. apply elem_of_cons in Hw as [->|Hw]; [|by apply Hcov].
        apply dec_stable in Hold.
        apply (seen_tracks_elem _ _ Hacc) in Hold as (p & Hp & Hid).
        apply (seen_tracks_elem _ _ Hinv). exists p. split; [by apply Hmono|done].
Qed.

Lemma undirected_iter_outer_spec (items : list (L * gset L)) acc :
  seen_tracks acc →
  seen_tracks (undirected_iter_outer items acc) ∧
  (∀ p, p ∈ acc.2 → p ∈ (undirected_iter_outer items acc).2) ∧
  (∀ p, p ∈ (undirected_iter_outer items acc).2 →
        p ∈ acc.2 ∨ ∃ u s v, (u, s) ∈ items ∧ v ∈ s ∧ p = (u, v)) ∧
  (∀ u s v, (u, s) ∈ items → v ∈ s →
            frozenset_pair (u, v) ∈ (undirected_iter_outer items acc).1).
Proof.
  revert acc. induction items as [|[u s] items IH]; intros acc Hacc; simpl.
  - split; [done|]. split; [done|]. split; [by left|].
    intros u s v Hin. by apply elem_of_nil in Hin.
  - destruct (undirected_iter_inner_spec u (elements s) acc Hacc)
      as (Hinv1 & Hmono1 & Hfrom1 & Hcov1).
    destruct (IH _ Hinv1) as (Hinv & Hmono & Hfrom & Hcov).
    split; [done|]. split; [by auto|]. split.
    + intros p Hp. destruct (Hfrom p Hp) as [Hin|(u' & s' & v & Hin & Hv & ->)].
      * destruct (Hfrom1 p Hin) as [?|(v & Hv & ->)]; [by left|].
        right. exists u, s, v. split; [by left|]. split; [|done].
        by apply elem_of_elements.
      * right. exists u', s', v. split; [by right|done].
    + intros u' s' v Hin Hv. apply elem_of_cons in Hin as [[= -> ->]|Hin].
      * apply (seen_tracks_elem _ _ Hinv).
        assert (frozenset_pair (u, v) ∈ (undirected_iter_inner u (elements s) acc).1)
          as Hseen by (apply Hcov1; by apply elem_of_elements).
        apply (seen_tracks_elem _ _ Hinv1) in Hseen as (p & Hp & Hid).
        exists p. split; [by apply Hmono|done].
      * by eapply Hcov.
Qed.

Lemma seen_tracks_empty : seen_tracks ((∅, []) : gset (gset L) * list (L * L)).
Proof. split; simpl; [done|apply NoDup_nil_2]. Qed.

Lemma undirected_iter_identities d :
  NoDup (frozenset_pair <$> undirected_iter d).
Proof.
  unfold undirected_iter.
  by destruct (undirected_iter_outer_spec (map_to_list d) _ seen_tracks_empty)
    as ([_ ?] & _).
Qed.

Lemma undirected_iter_sound d u v :
  (u, v) ∈ undirected_iter d → adjacent d u v.
Proof.
  unfold undirected_iter. intros Hp.
  destruct (undirected_iter_outer_spec (map_to_list d) _ seen_tracks_empty)
    as (_ & _ & Hfrom & _).
  destruct (Hfrom _ Hp) as [Hin|(u' & s & v' & Hin & Hv & [= -> ->])].
  - by apply elem_of_nil in Hin.
  - apply elem_of_map_to_list in Hin. by exists s.
Qed.

Lemma undirected_iter_complete d u v :
  adjacent d u v → (u, v) ∈ undirected_iter d ∨ (v, u) ∈ undirected_iter d.
Proof.
  unfold undirected_iter. intros (s & Hs & Hv).
  destruct (undirected_iter_outer_spec (map_to_list d) _ seen_tracks_empty)
    as (Hinv & _ & _ & Hcov).
  assert ((u, s) ∈ map_to_list d) as Hin by by apply elem_of_map_to_list.
  pose proof (Hcov u s v Hin Hv) as Hseen.
  apply (seen_tracks_elem _ _ Hinv) in Hseen as ([a b] & Hp & Hid).
  apply frozenset_pair_eq in Hid as [[= -> ->]|[= -> ->]]; auto.
Qed.

Lemma NoDup_fmap_same {A B} (f : A → B) (l : list A) x y :
  NoDup (f <$> l) → x ∈ l → y ∈ l → f x = f y → x = y.
Proof.
  induction l as [|a l IH]; simpl; intros Hnd Hx Hy Heq.
  - by apply elem_of_nil in Hx.
  - apply NoDup_cons in Hnd as [Ha Hnd].
    apply elem_of_cons in Hx as [->|Hx]; apply elem_of_cons in Hy as [->|Hy].
    + done.
    + exfalso. apply Ha. rewrite Heq. by apply list_elem_of_fmap_2.
    + exfalso. apply Ha. rewrite <- Heq. by apply list_elem_of_fmap_2.
    + by apply IH.
Qed.

Lemma undirected_iter_one_orientation d u v :
  u ≠ v → (u, v) ∈ undirected_iter d → (v, u) ∉ undirected_iter d.
Proof.
  intros Hne Huv Hvu.
  pose proof (undirected_iter_identities d) as Hnd.
  assert ((u, v) = (v, u)) as [= ? ?]; [|done].
  eapply (NoDup_fmap_same frozenset_pair); [done..|].
  unfold frozenset_pair. simpl. set_solver.
Qed.

Lemma undirected_iter_NoDup d : NoDup (undirected_iter d).
Proof. eapply NoDup_fmap_1, undirected_iter_identities. Qed.

Lemma directed_iter_elem d u v : (u, v) ∈ directed_iter d ↔ adjacent d u v.
Proof.
  unfold directed_iter, adjacent. rewrite list_elem_of_bind. split.
  - intros ([u' s] & Hin & Hs). apply list_elem_of_bind in Hin as (w & Hin & Hw).
    apply list_elem_of_singleton in Hin as [= -> ->].
    exists s. split; [by apply elem_of_map_to_list|by apply elem_of_elements].
  - intros (s & Hs & Hv). exists (u, s). split; [|by apply elem_of_map_to_list].
    apply list_elem_of_bind. exists v. split; [by apply list_elem_of_singleton|].
    by apply elem_of_elements.
Qed.

Lemma directed_iter_NoDup d : NoDup (directed_iter d).
Proof.
  unfold directed_iter. apply NoDup_bind.
  - intros [u1 s1] [u2 s2] [a b] H1 H2 Ha Hb.
    apply list_elem_of_bind in Ha as (w1 & Ha & Hw1).
    apply list_elem_of_bind in Hb as (w2 & Hb & Hw2).
    apply list_elem_of_singleton in Ha as [= -> ->].
    apply list_elem_of_singleton in Hb as [= -> ->].
    apply elem_of_map_to_list in H1, H2. congruence.
  - intros [u s] _. apply NoDup_bind.
    + intros v1 v2 q _ _ H1 H2.
      apply list_elem_of_singleton in H1, H2. congruence.
    + intros v _. apply NoDup_singleton.
    + apply NoDup_elements.
  - apply NoDup_map_to_list.
Qed.
End iteration.

Section directed_errors.
Context `{Countable L}.
Import DirectedGraph.
Implicit Types (g : t L) (u v a k x label : L) (e : exn).

Lemma directed_on_adj_raises (P : exn → Prop) f :
  (∀ d e, f d = inl e → P e) → raises_only P (on_adj (L:=L) f).
Proof.
  intros Hf g e. unfold on_adj. destruct (f (adj g)) as [e'|d] eqn:E; [|done].
  intros [= <-]. eauto.
Qed.

Lemma directed_on_back_adj_raises (P : exn → Prop) f :
  (∀ d e, f d = inl e → P e) → raises_only P (on_back_adj (L:=L) f).
Proof.
  intros Hf g e. unfold on_back_adj.
  destruct (f (back_adj g)) as [e'|d] eqn:E; [|done].
  intros [= <-]. eauto.
Qed.

Local Ltac key_error_only :=
  repeat first
    [ apply raises_only_ret | apply raises_only_gets | apply raises_only_modify
    | apply raises_only_if
    | apply raises_only_bind; [|intros ?]
    | apply raises_only_for; intros ?
    | apply raises_only_of_result; intros ?; apply dict_getitem_raises
    | apply directed_on_adj_raises; intros ? ?;
      first [apply dict_discard_raises | apply dict_del_raises | apply dict_add_raises]
    | apply directed_on_back_adj_raises; intros ? ?;
      first [apply dict_discard_raises | apply dict_del_raises | apply dict_add_raises] ].

Lemma directed_remove_node_absent g label :
  adj g !! label = None → remove_node label g = (inl DoesNotExistError, g).
Proof.
  intros Hk. apply dict_contains_false in Hk.
  unfold remove_node, mbind at 1, Exec_bind at 1, gets. by rewrite Hk.
Qed.

Lemma directed_remove_node_raises_present g label e :
  is_Some (adj g !! label) → (remove_node label g).1 = inl e → e = KeyError.
Proof.
  intros Hk. apply dict_contains_true in Hk.
  unfold remove_node, mbind at 1, Exec_bind at 1, gets at 1. rewrite Hk.
  cbn [negb]. clear Hk. revert g e.
  unfold bump. key_error_only. 
Qed.

Lemma directed_remove_edge_absent g u v :
  ¬ adjacent (adj g) u v → remove_edge u v g = (inl DoesNotExistError, g).
Proof.
  intros Huv. apply edge_contains_false in Huv.
  unfold remove_edge, mbind, Exec_bind, gets, of_result. cbv beta iota.
  by rewrite Huv.
Qed.

Lemma directed_remove_edge_raises_present g u v e :
  adjacent (adj g) u v → (remove_edge u v g).1 = inl e → e = KeyError.
Proof.
  intros Huv. apply edge_contains_true in Huv.
  unfold remove_edge, mbind at 1, Exec_bind at 1, gets at 1.
  unfold mbind at 1, Exec_bind at 1, of_result at 1. rewrite Huv. cbn [negb].
  clear Huv. revert g e. unfold bump. key_error_only.
Qed.

Lemma directed_add_node_returns g label : (add_node label g).1 = inr ().
Proof.
  unfold add_node, mbind, Exec_bind, gets. simpl.
  by destruct (dict_contains label (adj g)).
Qed.

Lemma directed_successors_eq g label :
  successors label g = (dict_getitem label (adj g), g).
Proof. done. Qed.

Lemma directed_predecessors_eq g label :
  predecessors label g = (dict_getitem label (back_adj g), g).
Proof. done. Qed.

Lemma directed_call_state g o :
  (call o g).2 =
    match o with
    | AddNode l => (add_node l g).2
    | AddEdge u v => (add_edge u v g).2
    | RemoveNode l => (remove_node l g).2
    | RemoveEdge u v => (remove_edge u v g).2
    | _ => g
    end.
Proof.
  destruct o as [l|u v|l|u v|l|l|l| |l| |u v| | |];
    try apply (bind_ret_state _ (λ _, VNone)); try done.
  - unfold call. rewrite (bind_ret_state _ VSet). by rewrite directed_predecessors_eq.
  - unfold call. rewrite (bind_ret_state _ VSet). by rewrite directed_successors_eq.
  - unfold call, neighbors. rewrite (bind_ret_state _ VSet).
    by rewrite directed_successors_eq.
  - unfold call, arbitrary_node, try_except, mbind, Exec_bind, gets, of_result.
    by destruct (dict_first_key (adj g)) as [[]|].
  - unfold call, mbind, Exec_bind, gets, of_result.
    by destruct (edge_contains (adj g) (u, v)).
  - unfold call, mbind, Exec_bind, gets, of_result.
    by destruct (builtin_len (number_of_edges g)).
Qed.
End directed_errors.

(** ** Views over a graph that is mutated afterwards *)

Section views.
Context `{Countable L}.
Import Objects.
Implicit Types (h : gmap ref (gmap L (gset L))).

Lemma undirected_method_store {A} (c : Exec (UndirectedGraph.t L) A)
    (self self' : undirected) h h' r :
  undirected_method c self h = Some (r, self', h') →
  ∃ d, h !! u_adj self = Some d ∧
       r = (c (UndirectedGraph.mk d (u_number_of_edges self))).1 ∧
       u_adj self' = u_adj self ∧
       u_number_of_edges self'
       = UndirectedGraph.number_of_edges
           (c (UndirectedGraph.mk d (u_number_of_edges self))).2 ∧
       h' !! u_adj self
       = Some (UndirectedGraph.adj
                 (c (UndirectedGraph.mk d (u_number_of_edges self))).2).
Proof.
  unfold undirected_method. destruct (h !! u_adj self) as [d|]; simpl; [|done].
  intros [= <- <- <-]. exists d. simpl. by rewrite lookup_insert_eq.
Qed.

Lemma directed_method_store {A} (c : Exec (DirectedGraph.t L) A)
    (self self' : directed) h h' r :
  directed_method c self h = Some (r, self', h') →
  ∃ d p, h !! d_adj self = Some d ∧ h !! d_back_adj self = Some p ∧
       r = (c (DirectedGraph.mk d p (d_number_of_edges self))).1 ∧
       d_adj self' = d_adj self ∧
       d_number_of_edges self'
       = DirectedGraph.number_of_edges
           (c (DirectedGraph.mk d p (d_number_of_edges self))).2 ∧
       h' !! d_adj self
       = Some (DirectedGraph.adj
                 (c (DirectedGraph.mk d p (d_number_of_edges self))).2).
Proof.
  unfold directed_method. destruct (h !! d_adj self) as [d|]; simpl; [|done].
  destruct (h !! d_back_adj self) as [p|]; simpl; [|done].
  intros [= <- <- <-]. exists d, p. simpl. by rewrite lookup_insert_eq.
Qed.
End views.

(** ** Which exceptions a call can raise *)

Section undirected_calls.
Context `{Countable L}.
Import UndirectedGraph.
Implicit Types (g : t L) (o : op L) (e : exn).

Lemma undirected_arbitrary_node_raises g e :
  (arbitrary_node g).1 = inl e → e = DoesNotExistError.
Proof.
  revert g e. apply raises_only_try_except.
  - apply raises_only_bind; [apply raises_only_gets|]. intros d.
    apply raises_only_of_result. intros e He. left. by eapply dict_first_key_raises.
  - by apply raises_only_raise.
Qed.

Lemma undirected_arbitrary_node_empty g :
  adj g = ∅ → arbitrary_node g = (inl DoesNotExistError, g).
Proof.
  intros Hg. unfold arbitrary_node, try_except, mbind, Exec_bind, gets, of_result.
  unfold dict_first_key. rewrite Hg, map_to_list_empty. done.
Qed.

Lemma undirected_neighbors_eq g label :
  neighbors label g = (dict_getitem label (adj g), g).
Proof. done. Qed.

Lemma undirected_call_raises g o e :
  (call o g).1 = inl e →
  match o with
  | AddEdge u v => u = v ∧ e = ValueError
  | RemoveNode l =>
      (adj g !! l = None ∧ e = DoesNotExistError)
      ∨ (is_Some (adj g !! l) ∧ (e = KeyError ∨ e = RuntimeError))
  | RemoveEdge u v =>
      (¬ adjacent (adj g) u v ∧ e = DoesNotExistError)
      ∨ (adjacent (adj g) u v ∧ e = KeyError)
  | Neighbors l => adj g !! l = None ∧ e = KeyError
  | ArbitraryNode => e = DoesNotExistError
  | EdgesLen => number_of_edges g < 0 ∧ e = ValueError
  | _ => False
  end.
Proof.
  destruct o as [l|u v|l|u v|l| |l| |u v| | |]; unfold call.
  - rewrite (bind_ret_raises _ (λ _, VNone)). by rewrite undirected_add_node_returns.
  - rewrite (bind_ret_raises _ (λ _, VNone)). destruct (decide (u = v)) as [->|Hne].
    + rewrite undirected_add_edge_self. by intros [= <-].
    + by rewrite undirected_add_edge_returns.
  - rewrite (bind_ret_raises _ (λ _, VNone)). destruct (adj g !! l) as [s|] eqn:E.
    + intros He. right. split; [eauto|].
      by eapply undirected_remove_node_raises_present.
    + rewrite undirected_remove_node_absent by done. intros [= <-]. by left.
  - rewrite (bind_ret_raises _ (λ _, VNone)).
    destruct (edge_contains_bool (adj g) u v) as ([] & _ & Hb).
    + assert (adjacent (adj g) u v) as Huv by by apply Hb.
      intros He. right. split; [done|].
      by eapply undirected_remove_edge_raises_present.
    + assert (¬ adjacent (adj g) u v) as Huv by (intros ?%Hb; done).
      rewrite undirected_remove_edge_absent by done. intros [= <-]. by left.
  - rewrite (bind_ret_raises _ VSet), undirected_neighbors_eq. simpl.
    unfold dict_getitem. destruct (adj g !! l); [done|]. by intros [= <-].
  - rewrite (bind_ret_raises _ VLabel). apply undirected_arbitrary_node_raises.
  - done.
  - done.
  - unfold mbind, Exec_bind, gets, of_result.
    by destruct (edge_contains_bool (adj g) u v) as (b & -> & _).
  - unfold mbind, Exec_bind, gets, of_result, builtin_len.
    destruct (decide (number_of_edges g < 0)); [|done]. by intros [= <-].
  - done.
  - done.
Qed.

Lemma undirected_not_found_unchanged g o :
  (call o g).1 = inl DoesNotExistError → (call o g).2 = g.
Proof.
  intros He. apply undirected_call_raises in He. rewrite undirected_call_state.
  destruct o as [l|u v|l|u v|l| |l| |u v| | |]; try done.
  - by destruct He.
  - destruct He as [[Hk _]|[_ [?|?]]]; [|done..].
    by rewrite undirected_remove_node_absent.
  - destruct He as [[Hk _]|[_ ?]]; [|done].
    by rewrite undirected_remove_edge_absent.
Qed.
End undirected_calls.

Section directed_calls.
Context `{Countable L}.
Import DirectedGraph.
Implicit Types (g : t L) (o : op L) (e : exn).

Lemma directed_arbitrary_node_raises g e :
  (arbitrary_node g).1 = inl e → e = DoesNotExistError.
Proof.
  revert g e. apply raises_only_try_except.
  - apply raises_only_bind; [apply raises_only_gets|]. intros d.
    apply raises_only_of_result. intros e He. left. by eapply dict_first_key_raises.
  - by apply raises_only_raise.
Qed.

Lemma directed_arbitrary_node_empty g :
  adj g = ∅ → arbitrary_node g = (inl DoesNotExistError, g).
Proof.
  intros Hg. unfold arbitrary_node, try_except, mbind, Exec_bind, gets, of_result.
  unfold dict_first_key. rewrite Hg, map_to_list_empty. done.
Qed.

Lemma directed_call_raises g o e :
  (call o g).1 = inl e →
  match o with
  | RemoveNode l =>
      (adj g !! l = None ∧ e = DoesNotExistError)
      ∨ (is_Some (adj g !! l) ∧ e = KeyError)
  | RemoveEdge u v =>
      (¬ adjacent (adj g) u v ∧ e = DoesNotExistError)
      ∨ (adjacent (adj g) u v ∧ e = KeyError)
  | Predecessors l => back_adj g !! l = None ∧ e = KeyError
  | Successors l | Neighbors l => adj g !! l = None ∧ e = KeyError
  | ArbitraryNode => e = DoesNotExistError
  | EdgesLen => number_of_edges g < 0 ∧ e = ValueError
  | _ => False
  end.
Proof.
  destruct o as [l|u v|l|u v|l|l|l| |l| |u v| | |]; unfold call.
  - rewrite (bind_ret_raises _ (λ _, VNone)). by rewrite directed_add_node_returns.
  - rewrite (bind_ret_raises _ (λ _, VNone)).
    by destruct (directed_add_edge_counter g u v) as [-> _].
  - rewrite (bind_ret_raises _ (λ _, VNone)). destruct (adj g !! l) as [s|] eqn:E.
    + intros He. right. split; [eauto|].
      eapply directed_remove_node_raises_present; [|done]. eauto.
    + rewrite directed_remove_node_absent by done. intros [= <-]. by left.
  - rewrite (bind_ret_raises _ (λ _, VNone)).
    destruct (edge_contains_bool (adj g) u v) as ([] & _ & Hb).
    + assert (adjacent (adj g) u v) as Huv by by apply Hb.
      intros He. right. split; [done|].
      by eapply directed_remove_edge_raises_present.
    + assert (¬ adjacent (adj g) u v) as Huv by (intros ?%Hb; done).
      rewrite directed_remove_edge_absent by done. intros [= <-]. by left.
  - rewrite (bind_ret_raises _ VSet), directed_predecessors_eq. simpl.
    unfold dict_getitem. destruct (back_adj g !! l); [done|]. by intros [= <-].
  - rewrite (bind_ret_raises _ VSet), directed_successors_eq. simpl.
    unfold dict_getitem. destruct (adj g !! l); [done|]. by intros [= <-].
  - unfold neighbors. rewrite (bind_ret_raises _ VSet), directed_successors_eq. simpl.
    unfold dict_getitem. destruct (adj g !! l); [done|]. by intros [= <-].
  - rewrite (bind_ret_raises _ VLabel). apply directed_arbitrary_node_raises.
  - done.
  - done.
  - unfold mbind, Exec_bind, gets, of_result.
    by destruct (edge_contains_bool (adj g) u v) as (b & -> & _).
  - unfold mbind, Exec_bind, gets, of_result, builtin_len.
    destruct (decide (number_of_edges g < 0)); [|done]. by intros [= <-].
  - done.
  - done.
Qed.

Lemma directed_not_found_unchanged g o :
  (call o g).1 = inl DoesNotExistError → (call o g).2 = g.
Proof.
  intros He. apply directed_call_raises in He. rewrite directed_call_state.
  destruct o as [l|u v|l|u v|l|l|l| |l| |u v| | |]; try done.
  - destruct He as [[Hk _]|[_ ?]]; [|done].
    by rewrite directed_remove_node_absent.
  - destruct He as [[Hk _]|[_ ?]]; [|done].
    by rewrite directed_remove_edge_absent.
Qed.
End directed_calls.

(** ** Removing a node of a directed graph *)

Section directed_remove_node.
Context `{Countable L}.
Import DirectedGraph.
Implicit Types (g : t L) (u v a k x label : L) (e : exn).

Lemma directed_parents_loop label (ps : list L) g :
  (∀ p, p ∈ ps → is_Some (adj g !! p)) →
  ∃ d', for_ ps (λ parent, on_adj (dict_discard parent label);; bump (-1)) g
        = (inr (), mk d' (back_adj g) (number_of_edges g - Z.of_nat (length ps))) ∧
        (∀ k, k ∉ ps → d' !! k = adj g !! k) ∧
        (∀ k, is_Some (d' !! k) ↔ is_Some (adj g !! k)) ∧
        (∀ a v, adjacent d' a v ↔ adjacent (adj g) a v ∧ ¬ (a ∈ ps ∧ v = label)).
Proof.
  revert g. induction ps as [|p ps IH]; intros g Hps.
  - exists (adj g). destruct g as [d b n]. simpl. split; [f_equal; f_equal; lia|].
    split; [done|]. split; [done|]. intros a v. rewrite elem_of_nil. naive_solver.
  - destruct (Hps p) as [sp Hsp]; [by left|].
    set (g1 := mk (<[p := sp ∖ {[label]}]> (adj g)) (back_adj g) (number_of_edges g + -1)).
    destruct (IH g1) as (d' & Hrun & Hother & Hkeys & Hadj).
    { intros q Hq. simpl. rewrite lookup_insert_is_Some.
      destruct (decide (p = q)); [by left|right]. split; [done|]. apply Hps. by right. }
    exists d'. split; [|split; [|split]].
    + simpl. erewrite (bind_inr _ _ g g1).
      2:{ erewrite bind_inr; [|unfold on_adj, dict_discard, dict_getitem; rewrite Hsp; reflexivity].
          reflexivity. }
      rewrite Hrun. simpl. f_equal. f_equal. lia.
    + intros k Hk. apply not_elem_of_cons in Hk as [Hne Hk].
      rewrite Hother by done. simpl. by rewrite lookup_insert_ne.
    + intros k. rewrite Hkeys. simpl. rewrite lookup_insert_is_Some.
      destruct (decide (p = k)) as [<-|]; naive_solver.
    + intros a v. rewrite Hadj. simpl. rewrite adjacent_discard by done.
      rewrite elem_of_cons. naive_solver.
Qed.

(** [remove_node] on a node whose entry in [back_adj] lists nodes of the
    graph and records a self-loop exactly when [adj] does. *)
Lemma directed_remove_node_spec g x (sx px : gset L) :
  adj g !! x = Some sx → back_adj g !! x = Some px →
  (x ∈ px ↔ x ∈ sx) →
  (∀ p, p ∈ px → is_Some (adj g !! p)) →
  ∃ d' b',
    remove_node x g
    = (inr (), mk d' b' (number_of_edges g - Z.of_nat (size sx)
                         - Z.of_nat (size (px ∖ {[x]})))) ∧
    (∀ a v, adjacent d' a v ↔ adjacent (adj g) a v ∧ a ≠ x ∧ ¬ (a ∈ px ∧ v = x)).
Proof.
  intros Hx Hbx Hself Hps.
  unfold remove_node.
  erewrite bind_inr; [|reflexivity].
  assert (dict_contains x (adj g) = true) as -> by (apply dict_contains_true; eauto).
  cbn [negb].
  erewrite bind_inr; [|reflexivity].
  erewrite bind_inr; [|unfold of_result, dict_getitem; rewrite Hbx; reflexivity].
  destruct (decide (x ∈ px)) as [Hin|Hnin].
  - rewrite bool_decide_eq_true_2 by done.
    set (g1 := mk (<[x := sx ∖ {[x]}]> (adj g)) (<[x := px ∖ {[x]}]> (back_adj g))
                  (number_of_edges g + -1)).
    erewrite (bind_inr _ _ g g1).
    2:{ erewrite bind_inr;
          [|unfold on_adj, dict_discard, dict_getitem; rewrite Hx; reflexivity].
        erewrite bind_inr;
          [|unfold on_back_adj, dict_discard, dict_getitem; simpl; rewrite Hbx; reflexivity].
        reflexivity. }
    erewrite bind_inr; [|reflexivity].
    erewrite bind_inr;
      [|unfold of_result, dict_getitem; simpl; rewrite lookup_insert_eq; reflexivity].
    destruct (directed_parents_loop x (elements (px ∖ {[x]})) g1)
      as (d' & Hrun & Hother & Hkeys & Hadj).
    { intros p Hp%elem_of_elements. simpl. rewrite lookup_insert_is_Some.
      destruct (decide (x = p)); [by left|right]. split; [done|]. apply Hps. set_solver. }
    erewrite bind_inr; [|exact Hrun].
    assert (d' !! x = Some (sx ∖ {[x]})) as Hd'x.
    { rewrite Hother; [simpl; by rewrite lookup_insert_eq|].
      rewrite elem_of_elements. set_solver. }
    erewrite bind_inr; [|reflexivity].
    erewrite bind_inr; [|unfold of_result, dict_getitem; simpl; rewrite Hd'x; reflexivity].
    erewrite bind_inr; [|reflexivity].
    unfold on_adj, dict_del. simpl. rewrite Hd'x.
    eexists _, _. split.
    + f_equal. f_equal. 
      assert (size sx = S (size (sx ∖ {[x]}))) as Hsz.
      { rewrite (union_difference_singleton_L x sx) at 1 by (by apply Hself).
        rewrite size_union by set_solver. by rewrite size_singleton. }
      change (length (elements (px ∖ {[x]}))) with (size (px ∖ {[x]})).
      rewrite Hsz. lia.
    + intros a v. rewrite adjacent_delete, Hadj. simpl.
      rewrite adjacent_discard by done. rewrite elem_of_elements.
      split; [|set_solver]. intros [[[Hav Hn1] Hn2] Hne]. split; [done|].
      split; [done|]. intros [Ha ->]. apply Hn2. split; [|done]. set_solver.
  - rewrite bool_decide_eq_false_2 by done.
    erewrite bind_inr; [|reflexivity].
    erewrite bind_inr; [|reflexivity].
    erewrite bind_inr; [|unfold of_result, dict_getitem; rewrite Hbx; reflexivity].
    destruct (directed_parents_loop x (elements px) g)
      as (d' & Hrun & Hother & Hkeys & Hadj).
    { intros p Hp%elem_of_elements. by apply Hps. }
    erewrite bind_inr; [|exact Hrun].
    assert (d' !! x = Some sx) as Hd'x.
    { rewrite Hother; [done|]. by rewrite elem_of_elements. }
    erewrite bind_inr; [|reflexivity].
    erewrite bind_inr; [|unfold of_result, dict_getitem; simpl; rewrite Hd'x; reflexivity].
    erewrite bind_inr; [|reflexivity].
    unfold on_adj, dict_del. simpl. rewrite Hd'x.
    eexists _, _. split.
    + f_equal. f_equal.
      assert (px ∖ {[x]} = px) as -> by set_solver.
      change (length (elements px)) with (size px). lia.
    + intros a v. rewrite adjacent_delete, Hadj. rewrite elem_of_elements. naive_solver.
Qed.
End directed_remove_node.

(** ** The edge counter of an undirected graph *)

Section undirected_counter.
Context `{Countable L}.
Import UndirectedGraph.
Implicit Types (g : t L) (d : gmap L (gset L)) (u v a b x label : L) (e : gset L).

Lemma frozenset_pair_comm u v : frozenset_pair (u, v) = frozenset_pair (v, u).
Proof. unfold frozenset_pair. simpl. set_solver. Qed.

Lemma edge_ids_elem d e :
  e ∈ edge_ids d ↔ ∃ u v, adjacent d u v ∧ e = frozenset_pair (u, v).
Proof.
  unfold edge_ids. rewrite elem_of_list_to_set, list_elem_of_fmap. split.
  - intros ([u v] & -> & Hin). exists u, v. split; [|done].
    by apply directed_iter_elem.
  - intros (u & v & Hadj & ->). exists (u, v). split; [done|].
    by apply directed_iter_elem.
Qed.

Lemma edge_ids_ext d d' :
  (∀ a b, adjacent d a b ↔ adjacent d' a b) → edge_ids d = edge_ids d'.
Proof.
  intros Hadj. apply set_eq. intros e. rewrite !edge_ids_elem.
  by setoid_rewrite Hadj.
Qed.

(** The undirected iteration yields as many pairs as there are edges. *)
Lemma undirected_iter_length d :
  length (undirected_iter d) = size (edge_ids d).
Proof.
  rewrite <- (length_fmap frozenset_pair).
  rewrite <- (size_list_to_set (C:=gset (gset L)) (frozenset_pair <$> undirected_iter d))
    by apply undirected_iter_identities.
  f_equal. apply set_eq. intros e.
  rewrite elem_of_list_to_set, list_elem_of_fmap, edge_ids_elem. split.
  - intros ([u v] & -> & Hin). exists u, v. split; [|done].
    by apply undirected_iter_sound.
  - intros (u & v & Hadj & ->).
    destruct (undirected_iter_complete d u v Hadj) as [Hin|Hin].
    + by exists (u, v).
    + exists (v, u). split; [apply frozenset_pair_comm|done].
Qed.

Lemma undirected_add_node_counter g label :
  number_of_edges (add_node label g).2 = number_of_edges g.
Proof.
  destruct g as [d n]. unfold add_node, mbind, Exec_bind, gets. simpl.
  by destruct (dict_contains label d).
Qed.

Lemma undirected_call_counted g o :
  symmetric g → no_self_loops g → counted g → counted (call o g).2.
Proof.
  intros Hsym Hloop Hcnt. rewrite undirected_call_state. unfold counted in *.
  destruct o as [l|u v|l|u v|l| |l| |u v| | |]; try done.
  - (* add_node *)
    rewrite undirected_add_node_counter, Hcnt. f_equal. f_equal.
    apply edge_ids_ext. intros a b. symmetry. apply undirected_add_node_adjacent.
  - (* add_edge *)
    destruct (decide (u = v)) as [->|Hne].
    { by rewrite undirected_add_edge_self. }
    rewrite undirected_add_edge_counter by done.
    assert (∀ a b, adjacent (adj (add_edge u v g).2) a b
                   ↔ adjacent (adj g) a b ∨ (a = u ∧ b = v) ∨ (a = v ∧ b = u)) as Hadj.
    { intros. apply undirected_add_edge_adjacent; [done|apply Hsym]. }
    destruct (edge_contains_bool (adj g) u v) as ([] & -> & Hb).
    + assert (adjacent (adj g) u v) as Huv by by apply Hb.
      rewrite Hcnt. f_equal. f_equal. apply edge_ids_ext. intros a b.
      rewrite Hadj. split; [auto|]. intros [?|[[-> ->]|[-> ->]]]; [done..|].
      by apply Hsym.
    + assert (¬ adjacent (adj g) u v) as Huv by (intros ?%Hb; done).
      assert (edge_ids (adj (add_edge u v g).2)
              = {[frozenset_pair (u, v)]} ∪ edge_ids (adj g)) as ->.
      { apply set_eq. intros e.
        rewrite elem_of_union, elem_of_singleton, !edge_ids_elem. split.
        - intros (a & b & [Hab|[[-> ->]|[-> ->]]]%Hadj & ->).
          + right. eauto.
          + by left.
          + left. apply frozenset_pair_comm.
        - intros [->|(a & b & Hab & ->)].
          + exists u, v. split; [|done]. apply Hadj. auto.
          + exists a, b. split; [|done]. apply Hadj. auto. }
      rewrite size_union, size_singleton, Hcnt; [lia|].
      apply disjoint_singleton_l. intros (a & b & Hab & Heq)%edge_ids_elem.
      apply frozenset_pair_eq in Heq as [[= <- <-]|[= <- <-]]; [done|].
      by apply Huv, Hsym.
  - (* remove_node *)
    destruct (adj g !! l) as [s|] eqn:E.
    2:{ by rewrite undirected_remove_node_absent. }
    destruct (undirected_remove_node_present g l s Hsym Hloop E) as (d' & -> & Hadj).
    simpl.
    set (R := list_to_set ((λ x, frozenset_pair (l, x)) <$> elements s) : gset (gset L)).
    assert (∀ e, e ∈ R ↔ ∃ x, x ∈ s ∧ e = frozenset_pair (l, x)) as HR.
    { intros e. unfold R. rewrite elem_of_list_to_set, list_elem_of_fmap.
      setoid_rewrite elem_of_elements. naive_solver. }
    assert (size R = size s) as HsizeR.
    { unfold R. rewrite size_list_to_set, length_fmap; [done|].
      apply NoDup_fmap_2_strong; [|apply NoDup_elements].
      intros x y _ _ [[= ?]|[= ? ?]]%frozenset_pair_eq; congruence. }
    assert (R ⊆ edge_ids (adj g)) as Hsub.
    { intros e (x & Hx & ->)%HR. apply edge_ids_elem. exists l, x.
      split; [by exists s|done]. }
    assert (edge_ids d' = edge_ids (adj g) ∖ R) as ->.
    { apply set_eq. intros e.
      rewrite elem_of_difference, HR, !edge_ids_elem. split.
      - intros (a & b & (Hab & Ha & Hb)%Hadj & ->). split; [eauto|].
        intros (x & _ & [[= ? ?]|[= ? ?]]%frozenset_pair_eq); congruence.
      - intros [(a & b & Hab & ->) Hno]. exists a, b. split; [|done].
        apply Hadj. split; [done|]. split.
        + intros ->. apply Hno. exists b. split; [|done].
          destruct Hab as (s' & Hs' & Hin). congruence.
        + intros ->. apply Hno. exists a. split; [|apply frozenset_pair_comm].
          apply Hsym in Hab. destruct Hab as (s' & Hs' & Hin). congruence. }
    rewrite size_difference by done. rewrite Hcnt.
    apply subseteq_size in Hsub. lia.
  - (* remove_edge *)
    destruct (edge_contains_bool (adj g) u v) as ([] & _ & Hb).
    2:{ rewrite undirected_remove_edge_absent; [done|]. by intros ?%Hb. }
    assert (adjacent (adj g) u v) as Huv by by apply Hb.
    destruct (undirected_remove_edge_present g u v Huv) as (d' & -> & Hadj).
    { apply Hsym in Huv. by eapply adjacent_key. }
    simpl.
    assert (frozenset_pair (u, v) ∈ edge_ids (adj g)) as Hin.
    { apply edge_ids_elem. eauto. }
    assert (edge_ids d' = edge_ids (adj g) ∖ {[frozenset_pair (u, v)]}) as ->.
    { apply set_eq. intros e.
      rewrite elem_of_difference, elem_of_singleton, !edge_ids_elem. split.
      - intros (a & b & (Hab & Hn1 & Hn2)%Hadj & ->). split; [eauto|].
        intros [[= ? ?]|[= ? ?]]%frozenset_pair_eq; naive_solver.
      - intros [(a & b & Hab & ->) Hno]. exists a, b. split; [|done].
        apply Hadj. split; [done|]. split.
        + intros [-> ->]. done.
        + intros [-> ->]. apply Hno, frozenset_pair_comm. }
    rewrite size_difference by set_solver. rewrite size_singleton, Hcnt.
    assert (size ({[frozenset_pair (u, v)]} : gset (gset L)) ≤ size (edge_ids (adj g)))%nat
      as Hle by (apply subseteq_size; set_solver).
    rewrite size_singleton in Hle. lia.
Qed.

(** On every graph built through the public calls the counter is the length
    of the iteration of the edges view. *)
Lemma undirected_reachable_counter g :
  reachable g →
  number_of_edges g = Z.of_nat (length (undirected_iter (adj g))).
Proof.
  intros Hreach. rewrite undirected_iter_length.
  induction Hreach as [|g o Hreach IH].
  - unfold counted. simpl. done.
  - destruct (undirected_reachable_invariant g Hreach) as [Hsym Hloop].
    by apply undirected_call_counted.
Qed.
End undirected_counter.

(** ** Where the forward and the reverse mapping stay in step *)

Section directed_consistency.
Context `{Countable L}.
Import DirectedGraph.
Implicit Types (g : t L) (u v a k x label : L).

Lemma directed_add_edge_adjacent g u v a k :
  (adjacent (adj (add_edge u v g).2) a k ↔ adjacent (adj g) a k ∨ (a = u ∧ k = v)) ∧
  (adjacent (back_adj (add_edge u v g).2) a k
   ↔ adjacent (back_adj g) a k ∨ (a = v ∧ k = u)).
Proof.
  destruct (directed_add_edge_unfold g u v)
    as (d1 & r1 & su & pv & -> & -> & Hu & Hv & ->). simpl.
  rewrite !adjacent_add by done. by rewrite !foldl_ensure_adjacent.
Qed.

Lemma directed_remove_edge_present g u v :
  adjacent (adj g) u v → adjacent (back_adj g) v u →
  ∃ d' b', remove_edge u v g = (inr (), mk d' b' (number_of_edges g - 1)) ∧
    (∀ a k, adjacent d' a k ↔ adjacent (adj g) a k ∧ ¬ (a = u ∧ k = v)) ∧
    (∀ a k, adjacent b' a k ↔ adjacent (back_adj g) a k ∧ ¬ (a = v ∧ k = u)).
Proof.
  intros Huv Hvu. pose proof Huv as (su & Hu & _). pose proof Hvu as (pv & Hv & _).
  exists (<[u := su ∖ {[v]}]> (adj g)), (<[v := pv ∖ {[u]}]> (back_adj g)).
  split; [|split].
  - unfold remove_edge. erewrite bind_inr; [|reflexivity].
    apply edge_contains_true in Huv.
    erewrite bind_inr; [|unfold of_result; rewrite Huv; reflexivity].
    cbn [negb].
    erewrite bind_inr;
      [|unfold on_adj, dict_discard, dict_getitem; rewrite Hu; reflexivity].
    erewrite bind_inr;
      [|unfold on_back_adj, dict_discard, dict_getitem; simpl; rewrite Hv; reflexivity].
    reflexivity.
  - intros a k. by apply adjacent_discard.
  - intros a k. by apply adjacent_discard.
Qed.

Lemma directed_add_node_unchanged_edges g label a k :
  adjacent (adj (add_node label g).2) a k ↔ adjacent (adj g) a k.
Proof.
  destruct g as [d b n]. unfold add_node, mbind, Exec_bind, gets. simpl.
  destruct (dict_contains label d) eqn:E; simpl; [done|].
  apply adjacent_new_set. by apply dict_contains_false.
Qed.

(** Every public call but [remove_node] keeps the two mappings in step. *)
Lemma directed_call_consistent g o :
  (∀ l, o ≠ RemoveNode l) → consistent g → consistent (call o g).2.
Proof.
  intros Hnot Hc. rewrite directed_call_state. unfold consistent in *.
  destruct o as [l|u v|l|u v|l|l|l| |l| |u v| | |]; try done.
  - intros a k. rewrite directed_add_node_unchanged_edges.
    by rewrite directed_add_node_back_adj.
  - intros a k.
    destruct (directed_add_edge_adjacent g u v a k) as [-> _].
    destruct (directed_add_edge_adjacent g u v k a) as [_ ->].
    specialize (Hc a k). naive_solver.
  - by destruct (Hnot l).
  - destruct (edge_contains_bool (adj g) u v) as ([] & _ & Hb).
    + assert (adjacent (adj g) u v) as Huv by by apply Hb.
      destruct (directed_remove_edge_present g u v Huv) as (d' & b' & -> & Hd & Hr).
      { by apply Hc. }
      simpl. intros a k. rewrite Hd, Hr. specialize (Hc a k). naive_solver.
    + rewrite directed_remove_edge_absent; [done|]. intros ?%Hb. done.
Qed.
End directed_consistency.

(** * The claims *)

Section claims_on_edges.
Context `{Countable L}.

(** C6. On a graph built through the public calls and for distinct labels
    [u] and [v], [add_edge u v] on an undirected graph returns normally; after
    it both [(u, v)] and [(v, u)] are in the edges view; the edge counter has
    grown by exactly 1 when the edge was absent (and is unchanged when it was
    present); and a second [add_edge u v] or [add_edge v u] leaves the counter
    as the first call left it. *)
Theorem undirected_add_edge_both_ways_counted_once
    (g : UndirectedGraph.t L) (u v : L) :
  UndirectedGraph.reachable g → u ≠ v →
  let g1 := (UndirectedGraph.add_edge u v g).2 in
  (UndirectedGraph.add_edge u v g).1 = inr () ∧
  UndirectedGraph.has_edge g1 u v ∧
  UndirectedGraph.has_edge g1 v u ∧
  (¬ UndirectedGraph.has_edge g u v →
     UndirectedGraph.number_of_edges g1 = UndirectedGraph.number_of_edges g + 1) ∧
  (UndirectedGraph.has_edge g u v →
     UndirectedGraph.number_of_edges g1 = UndirectedGraph.number_of_edges g) ∧
  UndirectedGraph.number_of_edges (UndirectedGraph.add_edge u v g1).2
  = UndirectedGraph.number_of_edges g1 ∧
  UndirectedGraph.number_of_edges (UndirectedGraph.add_edge v u g1).2
  = UndirectedGraph.number_of_edges g1.
Proof.
  intros Hreach Hne g1.
  destruct (undirected_reachable_invariant g Hreach) as [Hsym _].
  assert (∀ a b, adjacent (UndirectedGraph.adj g1) a b
                 ↔ adjacent (UndirectedGraph.adj g) a b ∨ (a = u ∧ b = v) ∨ (a = v ∧ b = u))
    as Hadj.
  { intros. apply undirected_add_edge_adjacent; [done|apply Hsym]. }
  assert (UndirectedGraph.has_edge g1 u v) as Huv.
  { apply edge_contains_true, Hadj. auto. }
  assert (UndirectedGraph.has_edge g1 v u) as Hvu.
  { apply edge_contains_true, Hadj. auto. }
  split; [by apply undirected_add_edge_returns|].
  split; [done|]. split; [done|].
  unfold UndirectedGraph.has_edge in *. subst g1.
  rewrite !undirected_add_edge_counter by done.
  split; [|split; [|split]].
  - intros Hno. destruct (edge_contains_bool (UndirectedGraph.adj g) u v) as ([] & Hb & _);
      rewrite Hb in *; done.
  - by intros ->.
  - by rewrite Huv.
  - by rewrite Hvu.
Qed.

(** C7. Iterating the edges view of an undirected graph yields no pair twice,
    yields only pairs [(u, v)] with [v] in [adj[u]], yields every such edge as
    [(u, v)] or as [(v, u)], and never yields both orientations of an edge;
    iterating the edges view of a directed graph yields no pair twice and
    yields exactly the pairs [(u, v)] with [v] in [adj[u]]. *)
Theorem edge_views_iterate_each_edge_once :
  (∀ g : UndirectedGraph.t L,
     NoDup (undirected_iter (UndirectedGraph.adj g)) ∧
     (∀ u v, (u, v) ∈ undirected_iter (UndirectedGraph.adj g) →
             UndirectedGraph.has_edge g u v) ∧
     (∀ u v, UndirectedGraph.has_edge g u v →
             (u, v) ∈ undirected_iter (UndirectedGraph.adj g)
             ∨ (v, u) ∈ undirected_iter (UndirectedGraph.adj g)) ∧
     (∀ u v, u ≠ v → (u, v) ∈ undirected_iter (UndirectedGraph.adj g) →
             (v, u) ∉ undirected_iter (UndirectedGraph.adj g))) ∧
  (∀ g : DirectedGraph.t L,
     NoDup (directed_iter (DirectedGraph.adj g)) ∧
     (∀ u v, (u, v) ∈ directed_iter (DirectedGraph.adj g)
             ↔ adjacent (DirectedGraph.adj g) u v)).
Proof.
  split.
  - intros g. split; [apply undirected_iter_NoDup|]. split; [|split].
    + intros u v Hin. by apply edge_contains_true, undirected_iter_sound.
    + intros u v Hin. by apply undirected_iter_complete, edge_contains_true.
    + intros u v. apply undirected_iter_one_orientation.
  - intros g. split; [apply directed_iter_NoDup|]. intros u v.
    apply directed_iter_elem.
Qed.

(** [add_edge x x] on an undirected graph raises [ValueError] and leaves the
    graph as it was.  On an undirected graph built through the public calls no
    other call raises [ValueError].  On a directed graph, in whatever state,
    the one call that can raise [ValueError] is the length of the edges view,
    and it does so exactly when the counter is negative. *)
Lemma value_error_only_from_self_loops_and_negative_lengths :
  (∀ (g : UndirectedGraph.t L) x,
     UndirectedGraph.add_edge x x g = (inl ValueError, g) ∧
     UndirectedGraph.call (UndirectedGraph.AddEdge x x) g = (inl ValueError, g)) ∧
  (∀ (g : UndirectedGraph.t L) o,
     UndirectedGraph.reachable g →
     ((UndirectedGraph.call o g).1 = inl ValueError
      ↔ ∃ x, o = UndirectedGraph.AddEdge x x)) ∧
  (∀ (g : DirectedGraph.t L) o,
     (DirectedGraph.call o g).1 = inl ValueError
     ↔ o = DirectedGraph.EdgesLen ∧ DirectedGraph.number_of_edges g < 0).
Proof.
  split; [|split].
  - intros g x. split; [apply undirected_add_edge_self|].
    unfold UndirectedGraph.call. erewrite bind_inl; [done|].
    apply undirected_add_edge_self.
  - intros g o Hreach. split.
    + intros He. apply undirected_call_raises in He.
      pose proof (undirected_reachable_counter g Hreach) as Hn.
      destruct o; try done; try naive_solver. lia.
    + intros [x ->]. unfold UndirectedGraph.call. erewrite bind_inl; [done|].
      apply undirected_add_edge_self.
  - intros g o. split.
    + intros He. apply directed_call_raises in He.
      destruct o; naive_solver.
    + intros [-> Hn]. unfold DirectedGraph.call, mbind, Exec_bind, gets, of_result.
      unfold builtin_len. by rewrite decide_True.
Qed.

(** C10. A membership query on the edges view of either graph class returns a
    boolean for every pair and leaves the graph as it was; the boolean is
    [False] when the first label has no entry in [adj]. *)
Theorem edge_membership_is_total :
  (∀ (d : gmap L (gset L)) u v,
     ∃ b : bool, edge_contains d (u, v) = inr b ∧ (d !! u = None → b = false)) ∧
  (∀ (g : UndirectedGraph.t L) u v,
     ∃ b : bool,
       UndirectedGraph.call (UndirectedGraph.EdgesContains u v) g = (inr (VBool b), g) ∧
       (UndirectedGraph.adj g !! u = None → b = false)) ∧
  (∀ (g : DirectedGraph.t L) u v,
     ∃ b : bool,
       DirectedGraph.call (DirectedGraph.EdgesContains u v) g = (inr (VBool b), g) ∧
       (DirectedGraph.adj g !! u = None → b = false)).
Proof.
  assert (∀ (d : gmap L (gset L)) u v,
     ∃ b : bool, edge_contains d (u, v) = inr b ∧ (d !! u = None → b = false)) as Hd.
  { intros d u v. destruct (edge_contains_bool d u v) as (b & Hb & Hadj).
    exists b. split; [done|]. intros Hu. destruct b; [|done].
    destruct Hadj as [Hadj _]. destruct (Hadj eq_refl) as (s & Hs & _). congruence. }
  split; [done|]. split.
  - intros g u v. destruct (Hd (UndirectedGraph.adj g) u v) as (b & Hb & Hu).
    exists b. split; [|done].
    unfold UndirectedGraph.call, mbind, Exec_bind, gets, of_result. by rewrite Hb.
  - intros g u v. destruct (Hd (DirectedGraph.adj g) u v) as (b & Hb & Hu).
    exists b. split; [|done].
    unfold DirectedGraph.call, mbind, Exec_bind, gets, of_result. by rewrite Hb.
Qed.
End claims_on_edges.

Section claims_on_errors_and_views.
Context `{Countable L}.

(** Where a missing element is reported: [remove_node] on a label that is no
    node, [remove_edge] on an edge that is not there and [arbitrary_node] on a
    graph with no node raise [DoesNotExistError], and every public call that
    raises [DoesNotExistError] leaves the graph as it was.  The lookups index
    the dictionary directly: [neighbors] and [successors] on a label with no
    entry in [adj], and [predecessors] on a label with no entry in [back_adj],
    raise the dictionary's [KeyError], also leaving the graph as it was. *)
Lemma missing_elements_raise_before_any_mutation :
  (∀ g : UndirectedGraph.t L,
     (∀ l, UndirectedGraph.adj g !! l = None →
           UndirectedGraph.remove_node l g = (inl DoesNotExistError, g)) ∧
     (∀ u v, ¬ UndirectedGraph.has_edge g u v →
             UndirectedGraph.remove_edge u v g = (inl DoesNotExistError, g)) ∧
     (UndirectedGraph.adj g = ∅ →
        UndirectedGraph.arbitrary_node g = (inl DoesNotExistError, g)) ∧
     (∀ l, UndirectedGraph.adj g !! l = None →
           UndirectedGraph.neighbors l g = (inl KeyError, g)) ∧
     (∀ o, (UndirectedGraph.call o g).1 = inl DoesNotExistError →
           (UndirectedGraph.call o g).2 = g)) ∧
  (∀ g : DirectedGraph.t L,
     (∀ l, DirectedGraph.adj g !! l = None →
           DirectedGraph.remove_node l g = (inl DoesNotExistError, g)) ∧
     (∀ u v, ¬ DirectedGraph.has_edge g u v →
             DirectedGraph.remove_edge u v g = (inl DoesNotExistError, g)) ∧
     (DirectedGraph.adj g = ∅ →
        DirectedGraph.arbitrary_node g = (inl DoesNotExistError, g)) ∧
     (∀ l, DirectedGraph.adj g !! l = None →
           DirectedGraph.successors l g = (inl KeyError, g) ∧
           DirectedGraph.neighbors l g = (inl KeyError, g)) ∧
     (∀ l, DirectedGraph.back_adj g !! l = None →
           DirectedGraph.predecessors l g = (inl KeyError, g)) ∧
     (∀ o, (DirectedGraph.call o g).1 = inl DoesNotExistError →
           (DirectedGraph.call o g).2 = g)).
Proof.
  split; intros g.
  - split; [apply undirected_remove_node_absent|].
    split. { intros u v Hno. apply undirected_remove_edge_absent.
             intros Huv. by apply Hno, edge_contains_true. }
    split; [apply undirected_arbitrary_node_empty|].
    split. { intros l Hl. rewrite undirected_neighbors_eq.
             unfold dict_getitem. by rewrite Hl. }
    apply undirected_not_found_unchanged.
  - split; [apply directed_remove_node_absent|].
    split. { intros u v Hno. apply directed_remove_edge_absent.
             intros Huv. by apply Hno, edge_contains_true. }
    split; [apply directed_arbitrary_node_empty|].
    split. { intros l Hl. unfold DirectedGraph.neighbors.
             rewrite directed_successors_eq. unfold dict_getitem. by rewrite Hl. }
    split. { intros l Hl. rewrite directed_predecessors_eq.
             unfold dict_getitem. by rewrite Hl. }
    apply directed_not_found_unchanged.
Qed.

(** After any public call the views taken before it read the dictionary the
    graph holds now: membership and iteration of the edges view, and
    membership, length and iteration of the nodes view, agree with those of
    views taken after the call. *)
Lemma views_read_the_live_dictionary :
  (∀ (self self' : Objects.undirected) (h h' : gmap ref (gmap L (gset L)))
     (o : UndirectedGraph.op L) r,
     Objects.undirected_method (UndirectedGraph.call o) self h = Some (r, self', h') →
     (∃ d, h !! Objects.u_adj self = Some d ∧
        ∀ e, Objects.EdgeView_contains h' (Objects.undirected_edges self) e
             = Some (edge_contains
                       (UndirectedGraph.adj
                          (UndirectedGraph.call o
                             (UndirectedGraph.mk d (Objects.u_number_of_edges self))).2) e)) ∧
     (∀ e, Objects.EdgeView_contains h' (Objects.undirected_edges self) e
           = Objects.EdgeView_contains h' (Objects.undirected_edges self') e) ∧
     Objects.UndirectedEdgeView_iter h' (Objects.undirected_edges self)
     = Objects.UndirectedEdgeView_iter h' (Objects.undirected_edges self') ∧
     (∀ x, Objects.NodesView_contains h' (Objects.undirected_nodes self) x
           = Objects.NodesView_contains h' (Objects.undirected_nodes self') x) ∧
     Objects.NodesView_len h' (Objects.undirected_nodes self)
     = Objects.NodesView_len h' (Objects.undirected_nodes self') ∧
     Objects.NodesView_iter h' (Objects.undirected_nodes self)
     = Objects.NodesView_iter h' (Objects.undirected_nodes self')) ∧
  (∀ (self self' : Objects.directed) (h h' : gmap ref (gmap L (gset L)))
     (o : DirectedGraph.op L) r,
     Objects.directed_method (DirectedGraph.call o) self h = Some (r, self', h') →
     (∃ d p, h !! Objects.d_adj self = Some d ∧ h !! Objects.d_back_adj self = Some p ∧
        ∀ e, Objects.EdgeView_contains h' (Objects.directed_edges self) e
             = Some (edge_contains
                       (DirectedGraph.adj
                          (DirectedGraph.call o
                             (DirectedGraph.mk d p (Objects.d_number_of_edges self))).2) e)) ∧
     (∀ e, Objects.EdgeView_contains h' (Objects.directed_edges self) e
           = Objects.EdgeView_contains h' (Objects.directed_edges self') e) ∧
     Objects.DirectedEdgeView_iter h' (Objects.directed_edges self)
     = Objects.DirectedEdgeView_iter h' (Objects.directed_edges self') ∧
     (∀ x, Objects.NodesView_contains h' (Objects.directed_nodes self) x
           = Objects.NodesView_contains h' (Objects.directed_nodes self') x) ∧
     Objects.NodesView_len h' (Objects.directed_nodes self)
     = Objects.NodesView_len h' (Objects.directed_nodes self') ∧
     Objects.NodesView_iter h' (Objects.directed_nodes self)
     = Objects.NodesView_iter h' (Objects.directed_nodes self')).
Proof.
  split.
  - intros self self' h h' o r Hrun.
    apply undirected_method_store in Hrun as (d & Hd & _ & Href & _ & Hh').
    split.
    { exists d. split; [done|]. intros e.
      unfold Objects.EdgeView_contains. simpl. by rewrite Hh'. }
    unfold Objects.EdgeView_contains, Objects.UndirectedEdgeView_iter,
      Objects.NodesView_contains, Objects.NodesView_len, Objects.NodesView_iter,
      Objects.undirected_edges, Objects.undirected_nodes. simpl.
    rewrite Href. done.
  - intros self self' h h' o r Hrun.
    apply directed_method_store in Hrun as (d & p & Hd & Hp & _ & Href & _ & Hh').
    split.
    { exists d, p. split; [done|]. split; [done|]. intros e.
      unfold Objects.EdgeView_contains. simpl. by rewrite Hh'. }
    unfold Objects.EdgeView_contains, Objects.DirectedEdgeView_iter,
      Objects.NodesView_contains, Objects.NodesView_len, Objects.NodesView_iter,
      Objects.directed_edges, Objects.directed_nodes. simpl.
    rewrite Href. done.
Qed.
End claims_on_errors_and_views.

(** * The claims on concrete graphs, with integer labels *)

Section concrete.
Import DirectedGraph.

(** C1 (the code does not do this).  After [add_edge(1, 2)] on a new directed
    graph the edge is there and the counter is 1; a second [add_edge(1, 2)]
    leaves one edge to iterate and moves the counter to 2. *)
Theorem directed_add_edge_again_counts_again :
  edge_contains (adj (run [AddEdge 1 2])) (1, 2) = inr true ∧
  number_of_edges (run [AddEdge 1 2]) = 1 ∧
  directed_iter (adj (run [AddEdge 1 2; AddEdge 1 2])) = [(1, 2)] ∧
  number_of_edges (run [AddEdge 1 2; AddEdge 1 2]) = 2.
Proof. vm_compute. repeat split; reflexivity. Qed.

(** C2 (the code does not do this).  After [add_edge(1, 6)] and
    [remove_node(1)] on a new directed graph, [adj] has no entry for 1, yet
    [back_adj] still has one and the predecessor set of 6 still contains 1: the
    forward and the reverse mapping disagree. *)
Theorem directed_remove_node_leaves_back_adj_behind :
  reachable (run [AddEdge 1 6; RemoveNode 1]) ∧
  (call (RemoveNode 1) (run [AddEdge 1 6])).1 = inr VNone ∧
  dict_contains 1 (adj (run [AddEdge 1 6; RemoveNode 1])) = false ∧
  dict_contains 1 (back_adj (run [AddEdge 1 6; RemoveNode 1])) = true ∧
  edge_contains (back_adj (run [AddEdge 1 6; RemoveNode 1])) (6, 1) = inr true ∧
  edge_contains (adj (run [AddEdge 1 6; RemoveNode 1])) (1, 6) = inr false ∧
  ¬ consistent (run [AddEdge 1 6; RemoveNode 1]).
Proof.
  split; [apply directed_run_reachable|].
  split; [vm_compute; reflexivity|].
  split; [vm_compute; reflexivity|].
  split; [vm_compute; reflexivity|].
  split; [vm_compute; reflexivity|].
  split; [vm_compute; reflexivity|].
  intros Hc.
  assert (adjacent (back_adj (run [AddEdge 1 6; RemoveNode 1])) 6 1) as Hb.
  { apply edge_contains_true. vm_compute. reflexivity. }
  apply Hc, edge_contains_true in Hb. vm_compute in Hb. discriminate.
Qed.

(** C3 (the code does not do this).  [add_node] never touches [back_adj]:
    after [add_node(1)] on a new directed graph, 1 has an entry in [adj] and
    none in [back_adj], and both [predecessors(1)] and [remove_node(1)] raise
    [KeyError]. *)
Theorem directed_add_node_makes_no_back_adj_entry :
  (∀ (g : t Z) label, back_adj (add_node label g).2 = back_adj g) ∧
  dict_contains 1 (adj (run [AddNode 1])) = true ∧
  dict_contains 1 (back_adj (run [AddNode 1])) = false ∧
  (call (Predecessors 1) (run [AddNode 1])).1 = inl KeyError ∧
  (call (RemoveNode 1) (run [AddNode 1])).1 = inl KeyError.
Proof.
  split; [apply directed_add_node_back_adj|]. vm_compute. repeat split; reflexivity.
Qed.

(** C5 (the code does not do this on every graph).  After [add_edge(5, 1)],
    [remove_node(1)] and [add_edge(1, 1)] the only edge is the self-loop
    [(1, 1)] and the counter is 1; [remove_node(1)] then returns normally and
    leaves the counter at -1, because [back_adj[1]] still lists 5. *)
Theorem directed_remove_node_counts_a_stale_predecessor :
  reachable (run [AddEdge 5 1; RemoveNode 1; AddEdge 1 1]) ∧
  directed_iter (adj (run [AddEdge 5 1; RemoveNode 1; AddEdge 1 1])) = [(1, 1)] ∧
  number_of_edges (run [AddEdge 5 1; RemoveNode 1; AddEdge 1 1]) = 1 ∧
  edge_contains (back_adj (run [AddEdge 5 1; RemoveNode 1; AddEdge 1 1])) (1, 5)
  = inr true ∧
  (call (RemoveNode 1) (run [AddEdge 5 1; RemoveNode 1; AddEdge 1 1])).1
  = inr VNone ∧
  number_of_edges (run [AddEdge 5 1; RemoveNode 1; AddEdge 1 1; RemoveNode 1]) = -1.
Proof.
  split; [apply directed_run_reachable|]. vm_compute. repeat split; reflexivity.
Qed.

(** C8 (the code does not do this).  After [add_edge(5, 1)], [remove_node(1)],
    [add_edge(1, 1)] and [remove_node(1)] on a new directed graph, each of
    which returns normally, the graph has no edge left and the counter is -1;
    the length of the edges view then raises [ValueError], in a run that never
    asked an undirected graph for a self-loop. *)
Theorem directed_len_edges_raises_value_error :
  reachable (run [AddEdge 5 1; RemoveNode 1; AddEdge 1 1; RemoveNode 1]) ∧
  (call (AddEdge 5 1) (run [])).1 = inr VNone ∧
  (call (RemoveNode 1) (run [AddEdge 5 1])).1 = inr VNone ∧
  (call (AddEdge 1 1) (run [AddEdge 5 1; RemoveNode 1])).1 = inr VNone ∧
  (call (RemoveNode 1) (run [AddEdge 5 1; RemoveNode 1; AddEdge 1 1])).1
  = inr VNone ∧
  directed_iter (adj (run [AddEdge 5 1; RemoveNode 1; AddEdge 1 1; RemoveNode 1]))
  = [] ∧
  number_of_edges (run [AddEdge 5 1; RemoveNode 1; AddEdge 1 1; RemoveNode 1]) = -1 ∧
  call EdgesLen (run [AddEdge 5 1; RemoveNode 1; AddEdge 1 1; RemoveNode 1])
  = (inl ValueError, run [AddEdge 5 1; RemoveNode 1; AddEdge 1 1; RemoveNode 1]).
Proof.
  split; [apply directed_run_reachable|]. vm_compute. repeat split; reflexivity.
Qed.

(** C9 (the code does not do this).  After [add_edge(1, 6)] and
    [remove_node(1)] on a new directed graph the label 1 is no node: the nodes
    view does not hold it, and [successors(1)] and [neighbors(1)] raise
    [KeyError].  Yet [predecessors(1)] raises nothing: it returns the empty
    set that [remove_node] left in [back_adj]. *)
Theorem directed_predecessors_of_a_removed_node_returns :
  reachable (run [AddEdge 1 6; RemoveNode 1]) ∧
  (call (RemoveNode 1) (run [AddEdge 1 6])).1 = inr VNone ∧
  call (NodesContains 1) (run [AddEdge 1 6; RemoveNode 1])
  = (inr (VBool false), run [AddEdge 1 6; RemoveNode 1]) ∧
  call (Successors 1) (run [AddEdge 1 6; RemoveNode 1])
  = (inl KeyError, run [AddEdge 1 6; RemoveNode 1]) ∧
  call (Neighbors 1) (run [AddEdge 1 6; RemoveNode 1])
  = (inl KeyError, run [AddEdge 1 6; RemoveNode 1]) ∧
  call (Predecessors 1) (run [AddEdge 1 6; RemoveNode 1])
  = (inr (VSet ∅), run [AddEdge 1 6; RemoveNode 1]).
Proof.
  split; [apply directed_run_reachable|]. vm_compute. repeat split; reflexivity.
Qed.

(** The scenario of the test suite: five edges added to a new graph, one of
    them a self-loop on 1, then [remove_node(1)]. *)
Lemma directed_remove_node_test_scenario :
  number_of_edges
    (run [AddEdge 1 3; AddEdge 3 1; AddEdge 5 1; AddEdge 1 6; AddEdge 1 1]) = 5 ∧
  number_of_edges
    (run [AddEdge 1 3; AddEdge 3 1; AddEdge 5 1; AddEdge 1 6; AddEdge 1 1;
          RemoveNode 1]) = 0 ∧
  directed_iter
    (adj (run [AddEdge 1 3; AddEdge 3 1; AddEdge 5 1; AddEdge 1 6; AddEdge 1 1;
               RemoveNode 1])) = [].
Proof. vm_compute. repeat split; reflexivity. Qed.
End concrete.

Section concrete_views.
Import Objects.

(** C4 (the code does not do this).  An edges view taken from a new
    undirected graph and kept across [add_edge(1, 2)]: afterwards its
    membership test finds the edge and its iteration yields one pair, as for a
    view taken after the call, yet its length is still 0, while the graph's
    counter and the length of a view taken after the call are 1. *)
Theorem edges_view_length_goes_stale :
  ∃ self' h',
    undirected_method (UndirectedGraph.call (UndirectedGraph.AddEdge 1 2))
      (undirected_new (L:=Z) ∅).1 (undirected_new (L:=Z) ∅).2
    = Some (inr VNone, self', h') ∧
    EdgeView_contains h' (undirected_edges (undirected_new (L:=Z) ∅).1) (1, 2)
    = Some (inr true) ∧
    length <$> UndirectedEdgeView_iter h' (undirected_edges (undirected_new (L:=Z) ∅).1)
    = Some 1%nat ∧
    UndirectedEdgeView_iter h' (undirected_edges (undirected_new (L:=Z) ∅).1)
    = UndirectedEdgeView_iter h' (undirected_edges self') ∧
    builtin_len (EdgeView_len (undirected_edges (undirected_new (L:=Z) ∅).1)) = inr 0 ∧
    u_number_of_edges self' = 1 ∧
    builtin_len (EdgeView_len (undirected_edges self')) = inr 1.
Proof.
  eexists _, _. split; [vm_compute; reflexivity|].
  vm_compute. repeat split; reflexivity.
Qed.
End concrete_views.

Section concrete_undirected.
Import UndirectedGraph.

(** C6 on a new graph and the labels 1 and 2. *)
Lemma undirected_add_edge_witness :
  reachable (__init__ (L:=Z)) ∧ (1 : Z) ≠ 2 ∧
  (add_edge 1 2 (__init__ (L:=Z))).1 = inr () ∧
  has_edge (add_edge 1 2 (__init__ (L:=Z))).2 1 2 ∧
  has_edge (add_edge 1 2 (__init__ (L:=Z))).2 2 1 ∧
  number_of_edges (add_edge 1 2 (add_edge 1 2 (__init__ (L:=Z))).2).2
  = number_of_edges (add_edge 1 2 (__init__ (L:=Z))).2 ∧
  number_of_edges (add_edge 2 1 (add_edge 1 2 (__init__ (L:=Z))).2).2
  = number_of_edges (add_edge 1 2 (__init__ (L:=Z))).2.
Proof.
  assert (reachable (__init__ (L:=Z))) as Hreach by constructor.
  assert ((1 : Z) ≠ 2) as Hne by lia.
  split; [exact Hreach|]. split; [exact Hne|].
  destruct (undirected_add_edge_both_ways_counted_once __init__ 1 2 Hreach Hne)
    as (H1 & H2 & H3 & _ & _ & H6 & H7).
  repeat split; assumption.
Defined.
End concrete_undirected.

(** * Further properties of the calls *)

(** ** The nodes of an undirected graph *)

Section undirected_nodes.
Context `{Countable L}.
Import UndirectedGraph.
Implicit Types (g : t L) (u v a b k x label : L).

Lemma has_edge_adjacent g u v : has_edge g u v ↔ adjacent (adj g) u v.
Proof. apply edge_contains_true. Qed.

Lemma undirected_add_edge_keys g u v k :
  u ≠ v →
  is_Some (adj (add_edge u v g).2 !! k) ↔ is_Some (adj g !! k) ∨ k = u ∨ k = v.
Proof.
  intros Hne.
  destruct (undirected_add_edge_unfold g u v Hne) as (d1 & su & sv & -> & Hu & Hv & ->).
  assert (∀ k, is_Some (foldl ensure (adj g) (elements ({[u; v]} : gset L)) !! k)
               ↔ is_Some (adj g !! k) ∨ k = u ∨ k = v) as Hkeys.
  { intros k'. rewrite foldl_ensure_key, elem_of_elements. set_solver. }
  simpl. destruct (bool_decide (v ∈ su)); simpl; [apply Hkeys|].
  rewrite !lookup_insert_is_Some, Hkeys.
  destruct (decide (v = k)), (decide (u = k)); naive_solver.
Qed.

Lemma undirected_remove_edge_keys g u v k :
  adjacent (adj g) u v → is_Some (adj g !! v) →
  is_Some (adj (remove_edge u v g).2 !! k) ↔ is_Some (adj g !! k).
Proof.
  intros Huv Hv. pose proof Huv as (su & Hu & _). destruct Hv as [sv Hv].
  assert (∃ sv', <[u := su ∖ {[v]}]> (adj g) !! v = Some sv') as [sv' Hv'].
  { destruct (decide (u = v)) as [->|?].
    - rewrite lookup_insert_eq. eauto.
    - rewrite lookup_insert_ne by done. eauto. }
  assert (remove_edge u v g
          = (inr (), mk (<[v := sv' ∖ {[u]}]> (<[u := su ∖ {[v]}]> (adj g)))
                        (number_of_edges g + -1))) as ->.
  { unfold remove_edge. erewrite bind_inr; [|reflexivity].
    apply edge_contains_true in Huv.
    erewrite bind_inr; [|unfold of_result; rewrite Huv; reflexivity].
    cbn [negb].
    erewrite bind_inr;
      [|unfold on_adj, dict_discard, dict_getitem; rewrite Hu; reflexivity].
    erewrite bind_inr;
      [|unfold on_adj, dict_discard, dict_getitem; simpl; rewrite Hv'; reflexivity].
    reflexivity. }
  simpl. rewrite !lookup_insert_is_Some.
  destruct (decide (v = k)), (decide (u = k)); naive_solver.
Qed.

(** [remove_node] on a node of a symmetric graph without self-loops: what is
    left of the dictionary. *)
Lemma undirected_remove_node_keys g label s :
  symmetric g → no_self_loops g → adj g !! label = Some s →
  ∀ k, is_Some (adj (remove_node label g).2 !! k) ↔ is_Some (adj g !! k) ∧ k ≠ label.
Proof.
  intros Hsym Hloop Hk.
  destruct (undirected_remove_node_loop_spec label (elements s) g) as (d' & Hrun & _ & Hkeys).
  { intros x Hx. apply elem_of_elements in Hx.
    assert (adjacent (adj g) label x) as Hlx by (exists s; done).
    split.
    - intros ->. by apply (Hloop label).
    - apply Hsym in Hlx. by eapply adjacent_key. }
  assert (is_Some (d' !! label)) as [s' Hs'] by (apply Hkeys; eauto).
  assert (remove_node label g
          = (inr (), mk (delete label d')
                        (number_of_edges g - Z.of_nat (length (elements s))))) as ->.
  { unfold remove_node.
    erewrite bind_inr;
      [|unfold try_except; erewrite bind_inr; [|reflexivity];
        unfold of_result, dict_getitem; rewrite Hk; reflexivity].
    erewrite bind_inr; [|exact Hrun].
    unfold on_adj, dict_del. simpl. by rewrite Hs'. }
  intros k. simpl. destruct (decide (k = label)) as [->|Hne].
  - rewrite lookup_delete_eq. split; [by intros [? [=]]|naive_solver].
  - rewrite lookup_delete_ne by done. rewrite Hkeys. naive_solver.
Qed.
End undirected_nodes.

(** ** Undirected graphs built through the public calls *)

Section undirected_reachable.
Context `{Countable L}.
Import UndirectedGraph.
Implicit Types (g : t L) (o : op L) (u v a b k x label : L) (e : exn).

Lemma undirected_arbitrary_node_raises_empty g e :
  (arbitrary_node g).1 = inl e → adj g = ∅.
Proof.
  unfold arbitrary_node, try_except, mbind, Exec_bind, gets, of_result, dict_first_key.
  destruct (map_to_list (adj g)) as [|[k s] l] eqn:E; simpl; [|done].
  intros _. by apply map_to_list_empty_iff.
Qed.

Lemma undirected_remove_edge_state g u v (su sv : gset L) :
  u ≠ v → adj g !! u = Some su → adj g !! v = Some sv → v ∈ su →
  remove_edge u v g
  = (inr (), mk (<[v := sv ∖ {[u]}]> (<[u := su ∖ {[v]}]> (adj g)))
                (number_of_edges g + -1)).
Proof.
  intros Hne Hu Hv Hin.
  assert (edge_contains (adj g) (u, v) = inr true) as Huv.
  { apply edge_contains_true. by exists su. }
  unfold remove_edge. erewrite bind_inr; [|reflexivity].
  erewrite bind_inr; [|unfold of_result; rewrite Huv; reflexivity].
  cbn [negb].
  erewrite bind_inr;
    [|unfold on_adj, dict_discard, dict_getitem; rewrite Hu; reflexivity].
  erewrite bind_inr;
    [|unfold on_adj, dict_discard, dict_getitem; simpl;
      rewrite lookup_insert_ne by done; rewrite Hv; reflexivity].
  reflexivity.
Qed.

(** X1.  On every undirected graph built through the public calls the edges
    view is symmetric, holds no self-loop, and both endpoints of every edge
    are nodes. *)
Theorem undirected_edges_are_symmetric_between_nodes g :
  reachable g →
  (∀ u v, has_edge g u v ↔ has_edge g v u) ∧
  (∀ u, ¬ has_edge g u u) ∧
  (∀ u v, has_edge g u v →
          dict_contains u (adj g) = true ∧ dict_contains v (adj g) = true).
Proof.
  intros Hreach. destruct (undirected_reachable_invariant g Hreach) as [Hsym Hloop].
  split; [|split].
  - intros u v. rewrite !has_edge_adjacent. apply Hsym.
  - intros u. rewrite has_edge_adjacent. apply Hloop.
  - intros u v Huv%has_edge_adjacent. split; apply dict_contains_true.
    + by eapply adjacent_key.
    + apply Hsym in Huv. by eapply adjacent_key.
Qed.

(** X2.  On every undirected graph built through the public calls the length
    of the edges view is the number of pairs its iteration yields; it is never
    negative. *)
Theorem undirected_len_edges_is_the_number_iterated g :
  reachable g →
  ∃ es, call EdgesIter g = (inr (VEdges es), g) ∧
        call EdgesLen g = (inr (VInt (Z.of_nat (length es))), g) ∧
        0 ≤ number_of_edges g.
Proof.
  intros Hreach. exists (undirected_iter (adj g)). split; [done|].
  pose proof (undirected_reachable_counter g Hreach) as Hn.
  split; [|lia]. unfold call, mbind, Exec_bind, gets, of_result, builtin_len.
  rewrite Hn. by rewrite decide_False by lia.
Qed.

(** X3.  On an undirected graph built through the public calls, a call that
    raises leaves the graph as it was, and it raises only [ValueError] for
    [add_edge] on two equal labels, [DoesNotExistError] for [remove_node] and
    [remove_edge] on what is not there and for [arbitrary_node] on a graph
    with no node, and [KeyError] for [neighbors] on a label that is no node. *)
Theorem undirected_failed_call_changes_nothing g o e :
  reachable g → (call o g).1 = inl e →
  (call o g).2 = g ∧
  match o with
  | AddEdge u v => u = v ∧ e = ValueError
  | RemoveNode l => adj g !! l = None ∧ e = DoesNotExistError
  | RemoveEdge u v => ¬ has_edge g u v ∧ e = DoesNotExistError
  | Neighbors l => adj g !! l = None ∧ e = KeyError
  | ArbitraryNode => adj g = ∅ ∧ e = DoesNotExistError
  | _ => False
  end.
Proof.
  intros Hreach He. destruct (undirected_reachable_invariant g Hreach) as [Hsym Hloop].
  pose proof (undirected_call_raises g o e He) as Hcases.
  rewrite undirected_call_state.
  destruct o as [l|u v|l|u v|l| |l| |u v| | |]; try done.
  - destruct Hcases as [-> ->]. by rewrite undirected_add_edge_self.
  - destruct Hcases as [[Hl ->]|[[s Hs] _]].
    + by rewrite undirected_remove_node_absent.
    + exfalso. unfold call in He. rewrite (bind_ret_raises _ (λ _, VNone)) in He.
      destruct (undirected_remove_node_present g l s Hsym Hloop Hs) as (d' & Heq & _).
      by rewrite Heq in He.
  - destruct Hcases as [[Hno ->]|[Huv _]].
    + rewrite undirected_remove_edge_absent by done.
      split; [done|]. split; [|done]. by rewrite has_edge_adjacent.
    + exfalso. unfold call in He. rewrite (bind_ret_raises _ (λ _, VNone)) in He.
      destruct (undirected_remove_edge_present g u v Huv) as (d' & Heq & _).
      { apply Hsym in Huv. by eapply adjacent_key. }
      by rewrite Heq in He.
  - split; [done|]. split; [|done].
    unfold call in He. rewrite (bind_ret_raises _ VLabel) in He.
    by eapply undirected_arbitrary_node_raises_empty.
  - exfalso. destruct Hcases as [Hneg _].
    pose proof (undirected_reachable_counter g Hreach). lia.
Qed.

(** X4.  On an undirected graph built through the public calls and for two
    distinct labels, [add_edge u v] makes [u] and [v] nodes and removes none,
    adds the edge in both orientations and changes no other edge, and
    afterwards [neighbors u] holds [v] and [neighbors v] holds [u]. *)
Theorem undirected_add_edge_creates_nodes_and_one_edge g u v :
  reachable g → u ≠ v →
  (∀ k, dict_contains k (adj (add_edge u v g).2) = true
        ↔ dict_contains k (adj g) = true ∨ k = u ∨ k = v) ∧
  (∀ a b, has_edge (add_edge u v g).2 a b
          ↔ has_edge g a b ∨ (a = u ∧ b = v) ∨ (a = v ∧ b = u)) ∧
  (∃ s, neighbors u (add_edge u v g).2 = (inr s, (add_edge u v g).2) ∧ v ∈ s) ∧
  (∃ s, neighbors v (add_edge u v g).2 = (inr s, (add_edge u v g).2) ∧ u ∈ s).
Proof.
  intros Hreach Hne. destruct (undirected_reachable_invariant g Hreach) as [Hsym _].
  assert (∀ a b, adjacent (adj (add_edge u v g).2) a b
                 ↔ adjacent (adj g) a b ∨ (a = u ∧ b = v) ∨ (a = v ∧ b = u)) as Hadj.
  { intros. apply undirected_add_edge_adjacent; [done|apply Hsym]. }
  split; [|split; [|split]].
  - intros k. rewrite !dict_contains_true. by apply undirected_add_edge_keys.
  - intros a b. rewrite !has_edge_adjacent. apply Hadj.
  - destruct (proj2 (Hadj u v)) as (s & Hs & Hin); [auto|].
    exists s. split; [|done]. rewrite undirected_neighbors_eq.
    unfold dict_getitem. by rewrite Hs.
  - destruct (proj2 (Hadj v u)) as (s & Hs & Hin); [auto|].
    exists s. split; [|done]. rewrite undirected_neighbors_eq.
    unfold dict_getitem. by rewrite Hs.
Qed.

Lemma undirected_remove_edge_both_ways g u v :
  reachable g → has_edge g u v →
  ∃ g', remove_edge u v g = (inr (), g') ∧
        remove_edge v u g = (inr (), g') ∧
        (∀ a b, has_edge g' a b
                ↔ has_edge g a b ∧ ¬ (a = u ∧ b = v) ∧ ¬ (a = v ∧ b = u)) ∧
        (∀ k, dict_contains k (adj g') = true ↔ dict_contains k (adj g) = true) ∧
        number_of_edges g' = number_of_edges g - 1.
Proof.
  intros Hreach Huv%has_edge_adjacent.
  destruct (undirected_reachable_invariant g Hreach) as [Hsym Hloop].
  assert (u ≠ v) as Hne by (intros ->; by apply (Hloop v)).
  pose proof Huv as (su & Hu & Hvin).
  pose proof (proj1 (Hsym u v) Huv) as (sv & Hv & Huin).
  eexists. split; [by apply (undirected_remove_edge_state g u v su sv)|].
  split.
  { rewrite (undirected_remove_edge_state g v u sv su) by done.
    f_equal. f_equal. by apply insert_insert_ne. }
  split; [|split].
  - intros a b. rewrite !has_edge_adjacent. simpl.
    rewrite adjacent_discard by (by rewrite lookup_insert_ne).
    rewrite adjacent_discard by done. naive_solver.
  - intros k. rewrite !dict_contains_true. simpl. rewrite !lookup_insert_is_Some.
    destruct (decide (v = k)), (decide (u = k)); naive_solver.
  - simpl. lia.
Qed.

(** X5.  On an undirected graph built through the public calls,
    [remove_edge u v] on an edge that is there returns normally, and
    [remove_edge v u] does exactly the same: the edge is gone in both
    orientations, every other edge and every node stays, and the counter drops
    by 1. *)
Theorem undirected_remove_edge_removes_both_orientations g u v :
  reachable g → has_edge g u v →
  ∃ g', remove_edge u v g = (inr (), g') ∧
        remove_edge v u g = (inr (), g') ∧
        (∀ a b, has_edge g' a b
                ↔ has_edge g a b ∧ ¬ (a = u ∧ b = v) ∧ ¬ (a = v ∧ b = u)) ∧
        (∀ k, dict_contains k (adj g') = true ↔ dict_contains k (adj g) = true) ∧
        number_of_edges g' = number_of_edges g - 1.
Proof. apply undirected_remove_edge_both_ways. Qed.

(** X6.  On an undirected graph built through the public calls,
    [remove_node] on a node returns normally: the label is no node any more,
    every other node stays, exactly the edges that touch the label are gone,
    and the counter drops by the number of neighbours the node had. *)
Theorem undirected_remove_node_removes_its_edges g label (s : gset L) :
  reachable g → adj g !! label = Some s →
  ∃ g', remove_node label g = (inr (), g') ∧
        (∀ k, dict_contains k (adj g') = true
              ↔ dict_contains k (adj g) = true ∧ k ≠ label) ∧
        (∀ a b, has_edge g' a b ↔ has_edge g a b ∧ a ≠ label ∧ b ≠ label) ∧
        number_of_edges g' = number_of_edges g - Z.of_nat (size s).
Proof.
  intros Hreach Hs. destruct (undirected_reachable_invariant g Hreach) as [Hsym Hloop].
  pose proof (undirected_remove_node_keys g label s Hsym Hloop Hs) as Hkeys.
  destruct (undirected_remove_node_present g label s Hsym Hloop Hs) as (d' & Heq & Hadj).
  rewrite Heq in Hkeys. simpl in Hkeys.
  eexists. split; [exact Heq|]. split; [|split].
  - intros k. rewrite !dict_contains_true. apply Hkeys.
  - intros a b. rewrite !has_edge_adjacent. apply Hadj.
  - done.
Qed.

(** X7.  On an undirected graph built through the public calls, adding an
    edge that was not there and removing it again, named in either
    orientation, gives back the edges and the counter the graph had. *)
Theorem undirected_add_then_remove_edge_restores g u v :
  reachable g → u ≠ v → ¬ has_edge g u v →
  (remove_edge u v (add_edge u v g).2).1 = inr () ∧
  remove_edge v u (add_edge u v g).2 = remove_edge u v (add_edge u v g).2 ∧
  (∀ a b, has_edge (remove_edge u v (add_edge u v g).2).2 a b ↔ has_edge g a b) ∧
  number_of_edges (remove_edge u v (add_edge u v g).2).2 = number_of_edges g.
Proof.
  intros Hreach Hne Hno.
  assert (reachable (add_edge u v g).2) as Hreach1.
  { pose proof (reachable_call g (AddEdge u v) Hreach) as Hr.
    by rewrite undirected_call_state in Hr. }
  destruct (undirected_reachable_invariant g Hreach) as [Hsym Hloop].
  assert (∀ a b, adjacent (adj (add_edge u v g).2) a b
                 ↔ adjacent (adj g) a b ∨ (a = u ∧ b = v) ∨ (a = v ∧ b = u)) as Hadj.
  { intros. apply undirected_add_edge_adjacent; [done|apply Hsym]. }
  assert (has_edge (add_edge u v g).2 u v) as Huv.
  { apply has_edge_adjacent, Hadj. auto. }
  destruct (undirected_remove_edge_both_ways (add_edge u v g).2 u v Hreach1 Huv)
    as (g' & Heq1 & Heq2 & Hedges & _ & Hcount).
  rewrite Heq1, Heq2. simpl. split; [done|]. split; [done|]. split.
  - intros a b. rewrite Hedges, !has_edge_adjacent, Hadj.
    rewrite has_edge_adjacent in Hno. split; [naive_solver|].
    intros Hab. split; [auto|]. split; intros [-> ->]; [done|].
    by apply Hno, Hsym.
  - rewrite Hcount, undirected_add_edge_counter by done.
    destruct (edge_contains_bool (adj g) u v) as ([] & -> & Hb); [|lia].
    exfalso. apply Hno. by rewrite has_edge_adjacent, <- Hb.
Qed.
End undirected_reachable.

(** ** Reasoning about method bodies step by step *)

Section hoare_rules.
Context {S : Type}.
Implicit Types (P E : S → Prop).

Lemma hoare_conseq {A} P P' (c : Exec S A) (Q Q' : A → S → Prop) E E' :
  (∀ s, P' s → P s) → (∀ a s, Q a s → Q' a s) → (∀ s, E s → E' s) →
  hoare P c Q E → hoare P' c Q' E'.
Proof.
  intros HP HQ HE Hc s Hs. specialize (Hc s (HP s Hs)).
  destruct (c s).1; eauto.
Qed.

Lemma hoare_ret {A} P (a : A) E : hoare P (mret a) (λ a' s, a' = a ∧ P s) E.
Proof. by intros s Hs. Qed.

Lemma hoare_gets {A} P (f : S → A) E : hoare P (gets f) (λ a s, a = f s ∧ P s) E.
Proof. by intros s Hs. Qed.

Lemma hoare_modify P (f : S → S) (Q : S → Prop) E :
  (∀ s, P s → Q (f s)) → hoare P (modify f) (λ _, Q) E.
Proof. intros Hf s Hs. simpl. auto. Qed.

Lemma hoare_raise {A} P e (Q : A → S → Prop) E :
  (∀ s, P s → E s) → hoare P (raise e) Q E.
Proof. intros HE s Hs. by apply HE. Qed.

Lemma hoare_of_result {A} P (r : exn + A) E :
  (∀ s, P s → E s) → hoare P (of_result r) (λ a s, r = inr a ∧ P s) E.
Proof. intros HE s Hs. simpl. destruct r; auto. Qed.

Lemma hoare_bind {A B} P (c : Exec S A) (f : A → Exec S B)
    (Q : A → S → Prop) (R : B → S → Prop) E :
  hoare P c Q E → (∀ a, hoare (Q a) (f a) R E) → hoare P (c ≫= f) R E.
Proof.
  intros Hc Hf s Hs. specialize (Hc s Hs). unfold mbind, Exec_bind.
  destruct (c s) as [[e|a] s']; simpl in *; [done|]. by apply Hf.
Qed.

(** A loop with an invariant over the elements walked so far. *)
Lemma hoare_for {A} (I : list A → S → Prop) (xs : list A)
    (body : A → Exec S unit) E :
  (∀ walked x, hoare (I walked) (body x) (λ _, I (walked ++ [x])) E) →
  hoare (I []) (for_ xs body) (λ _, I xs) E.
Proof.
  intros Hbody.
  assert (∀ walked, hoare (I walked) (for_ xs body) (λ _, I (walked ++ xs)) E) as Hgen.
  { induction xs as [|x xs IH]; intros walked; simpl.
    - intros s Hs. simpl. by rewrite app_nil_r.
    - eapply hoare_bind; [apply Hbody|]. intros [].
      eapply hoare_conseq; [done| |done|apply (IH (walked ++ [x]))].
      intros [] s. by rewrite <- app_assoc. }
  apply (Hgen []).
Qed.
End hoare_rules.

(** ** What every directed graph built through the public calls satisfies *)

Section directed_shape_facts.
Context `{Countable L}.
Import DirectedGraph.
Implicit Types (g : t L) (o : op L) (u v a k x label : L).

Lemma directed_add_node_state g label :
  add_node label g
  = (inr (), mk (ensure (adj g) label) (back_adj g) (number_of_edges g)).
Proof.
  destruct g as [d b n]. unfold add_node, mbind, Exec_bind, gets, ensure. simpl.
  by destruct (dict_contains label d).
Qed.

Lemma directed_add_edge_keys g u v k :
  (is_Some (adj (add_edge u v g).2 !! k) ↔ is_Some (adj g !! k) ∨ k = u ∨ k = v) ∧
  (is_Some (back_adj (add_edge u v g).2 !! k)
   ↔ is_Some (back_adj g !! k) ∨ k = u ∨ k = v).
Proof.
  destruct (directed_add_edge_unfold g u v)
    as (d1 & r1 & su & pv & -> & -> & Hu & Hv & ->). simpl.
  rewrite !lookup_insert_is_Some, !foldl_ensure_key, !elem_of_elements.
  split.
  - destruct (decide (u = k)); set_solver.
  - destruct (decide (v = k)); set_solver.
Qed.

Lemma directed_remove_edge_state g u v (su pv : gset L) :
  adj g !! u = Some su → back_adj g !! v = Some pv → v ∈ su →
  remove_edge u v g
  = (inr (), mk (<[u := su ∖ {[v]}]> (adj g)) (<[v := pv ∖ {[u]}]> (back_adj g))
                (number_of_edges g + -1)).
Proof.
  intros Hu Hv Hin.
  assert (edge_contains (adj g) (u, v) = inr true) as Huv.
  { apply edge_contains_true. by exists su. }
  unfold remove_edge. erewrite bind_inr; [|reflexivity].
  erewrite bind_inr; [|unfold of_result; rewrite Huv; reflexivity].
  cbn [negb].
  erewrite bind_inr;
    [|unfold on_adj, dict_discard, dict_getitem; rewrite Hu; reflexivity].
  erewrite bind_inr;
    [|unfold on_back_adj, dict_discard, dict_getitem; simpl; rewrite Hv; reflexivity].
  reflexivity.
Qed.

(** The self-loop branch of [remove_node]. *)
Lemma directed_remove_node_self_loop label (parents : gset L) :
  hoare (λ g, recorded g ∧ closed g ∧ is_Some (adj g !! label)
              ∧ back_adj g !! label = Some parents)
    (if bool_decide (label ∈ parents)
     then on_adj (dict_discard label label);;
          on_back_adj (dict_discard label label);;
          bump (-1)
     else mret ())
    (λ _ g, recorded g ∧ closed g ∧ is_Some (adj g !! label)
            ∧ ¬ adjacent (adj g) label label)
    (λ g, recorded g ∧ closed g).
Proof.
  intros g (Hrec & Hclo & [sx Hx] & Hb).
  destruct (decide (label ∈ parents)) as [Hin|Hnin].
  - rewrite bool_decide_eq_true_2 by done.
    erewrite bind_inr;
      [|unfold on_adj, dict_discard, dict_getitem; rewrite Hx; reflexivity].
    erewrite bind_inr;
      [|unfold on_back_adj, dict_discard, dict_getitem; simpl; rewrite Hb; reflexivity].
    unfold recorded, closed; simpl. split; [|split; [|split]].
    + intros a k (Hak & Hn)%adjacent_discard; [|done].
      apply adjacent_discard; [done|]. split; [by apply Hrec|]. naive_solver.
    + intros a k (Hak & Hn)%adjacent_discard; [|done].
      rewrite lookup_insert_is_Some. destruct (decide (label = k)); [by left|right].
      split; [done|]. by eapply Hclo.
    + rewrite lookup_insert_eq. eauto.
    + intros (_ & Hn)%adjacent_discard; [|done]. naive_solver.
  - rewrite bool_decide_eq_false_2 by done. simpl.
    split; [done|]. split; [done|]. split; [eauto|].
    intros (p & Hp & Hl)%Hrec. congruence.
Qed.

(** The body of the loop of [remove_node] over the predecessors. *)
Lemma directed_remove_node_loop_body label (parents : gset L) (walked : list L) parent :
  hoare (λ g, recorded g ∧ closed g ∧ is_Some (adj g !! label)
              ∧ back_adj g !! label = Some parents
              ∧ ∀ p, p ∈ walked → ¬ adjacent (adj g) p label)
    (on_adj (dict_discard parent label);; bump (-1))
    (λ _ g, recorded g ∧ closed g ∧ is_Some (adj g !! label)
            ∧ back_adj g !! label = Some parents
            ∧ ∀ p, p ∈ walked ++ [parent] → ¬ adjacent (adj g) p label)
    (λ g, recorded g ∧ closed g).
Proof.
  intros g (Hrec & Hclo & Hx & Hb & Hwalked).
  destruct (adj g !! parent) as [sp|] eqn:Hp.
  - erewrite bind_inr;
      [|unfold on_adj, dict_discard, dict_getitem; rewrite Hp; reflexivity].
    unfold recorded, closed; simpl. split; [|split; [|split; [|split]]].
    + intros a k (Hak & _)%adjacent_discard; [|done]. by apply Hrec.
    + intros a k (Hak & _)%adjacent_discard; [|done].
      rewrite lookup_insert_is_Some. destruct (decide (parent = k)); [by left|right].
      split; [done|]. by eapply Hclo.
    + rewrite lookup_insert_is_Some. destruct (decide (parent = label)); auto.
    + done.
    + intros p [Hin|Hin]%elem_of_app (Hpl & Hn)%adjacent_discard; try done.
      * by apply (Hwalked p).
      * apply list_elem_of_singleton in Hin as ->. naive_solver.
  - erewrite bind_inl;
      [|unfold on_adj, dict_discard, dict_getitem; rewrite Hp; reflexivity].
    simpl. done.
Qed.

(** The end of [remove_node]: counting the successors and deleting the
    entry, once no edge leads to the node any more. *)
Lemma directed_remove_node_tail label (parents : gset L) :
  hoare (λ g, recorded g ∧ closed g ∧ is_Some (adj g !! label)
              ∧ back_adj g !! label = Some parents
              ∧ ∀ p, p ∈ elements parents → ¬ adjacent (adj g) p label)
    (d ← gets adj;
     children ← of_result (dict_getitem label d);
     bump (- Z.of_nat (size children));;
     on_adj (dict_del label))
    (λ _ g, recorded g ∧ closed g)
    (λ g, recorded g ∧ closed g).
Proof.
  intros g (Hrec & Hclo & [sx Hx] & Hb & Hgone).
  erewrite bind_inr; [|reflexivity].
  erewrite bind_inr; [|unfold of_result, dict_getitem; rewrite Hx; reflexivity].
  erewrite bind_inr; [|reflexivity].
  unfold on_adj, dict_del. simpl. rewrite Hx. unfold recorded, closed; simpl. split.
  - intros a k [Hak _]%adjacent_delete. by apply Hrec.
  - intros a k [Hak Hne]%adjacent_delete.
    destruct (decide (k = label)) as [->|Hk].
    + exfalso. apply (Hgone a); [|done].
      apply Hrec in Hak as (p & Hp & Hin). apply elem_of_elements. congruence.
    + rewrite lookup_delete_ne by done. by eapply Hclo.
Qed.

Lemma directed_remove_node_keeps_shape label :
  hoare (λ g, recorded g ∧ closed g) (remove_node label)
    (λ _ g, recorded g ∧ closed g) (λ g, recorded g ∧ closed g).
Proof.
  unfold remove_node.
  eapply hoare_bind; [apply hoare_gets|]. intros d. simpl.
  destruct (dict_contains label d) eqn:Hd; simpl.
  2:{ apply hoare_raise. naive_solver. }
  eapply hoare_bind; [apply hoare_gets|]. intros b. simpl.
  eapply hoare_bind; [apply hoare_of_result; naive_solver|]. intros parents. simpl.
  eapply hoare_bind.
  { eapply hoare_conseq; [| | |apply (directed_remove_node_self_loop label parents)];
      [|intros a s Hs; exact Hs|done].
    intros s (Hget & -> & -> & Hrec & Hclo).
    apply dict_contains_true in Hd.
    unfold dict_getitem in Hget. destruct (back_adj s !! label) eqn:E; naive_solver. }
  intros []. simpl.
  eapply hoare_bind; [apply hoare_gets|]. intros b2. simpl.
  eapply hoare_bind; [apply hoare_of_result; naive_solver|]. intros parents2. simpl.
  eapply hoare_bind.
  { eapply hoare_conseq;
      [| | |apply (hoare_for
                     (λ walked g, recorded g ∧ closed g ∧ is_Some (adj g !! label)
                        ∧ back_adj g !! label = Some parents2
                        ∧ ∀ p, p ∈ walked → ¬ adjacent (adj g) p label)
                     (elements parents2) _ (λ g, recorded g ∧ closed g))];
      [|intros a s Hs; exact Hs|done|].
    - intros s (Hget & -> & Hrec & Hclo & Hx & Hno).
      unfold dict_getitem in Hget. destruct (back_adj s !! label) eqn:E; [|done].
      injection Hget as ->. split; [done|]. split; [done|]. split; [done|].
      split; [done|]. intros p Hp. by apply elem_of_nil in Hp.
    - intros walked parent. apply directed_remove_node_loop_body. }
  intros []. simpl. apply directed_remove_node_tail.
Qed.
End directed_shape_facts.

Section directed_reachable.
Context `{Countable L}.
Import DirectedGraph.
Implicit Types (g : t L) (o : op L) (u v a k x label : L).

Lemma directed_call_shape g o :
  recorded g ∧ closed g → recorded (call o g).2 ∧ closed (call o g).2.
Proof.
  intros [Hrec Hclo]. rewrite directed_call_state.
  destruct o as [l|u v|l|u v|l|l|l| |l| |u v| | |]; try done.
  - rewrite directed_add_node_state. unfold recorded, closed. simpl. split.
    + intros a k Hak%adjacent_ensure. by apply Hrec.
    + intros a k Hak%adjacent_ensure. apply ensure_key. left. by eapply Hclo.
  - unfold recorded, closed. split; intros a k Hak.
    + apply (directed_add_edge_adjacent g u v) in Hak.
      apply (directed_add_edge_adjacent g u v). naive_solver.
    + apply (directed_add_edge_adjacent g u v) in Hak.
      apply (directed_add_edge_keys g u v). destruct Hak as [Hak|[-> ->]]; [|auto].
      left. by eapply Hclo.
  - pose proof (directed_remove_node_keeps_shape l g (conj Hrec Hclo)) as Hl.
    by destruct (remove_node l g).1.
  - destruct (edge_contains_bool (adj g) u v) as ([] & _ & Hb).
    2:{ rewrite directed_remove_edge_absent; [done|]. by intros ?%Hb. }
    assert (adjacent (adj g) u v) as Huv by by apply Hb.
    pose proof Huv as (su & Hu & Hin).
    pose proof (Hrec u v Huv) as (pv & Hv & _).
    rewrite (directed_remove_edge_state g u v su pv) by done.
    unfold recorded, closed. simpl. split.
    + intros a k (Hak & Hn)%adjacent_discard; [|done].
      apply adjacent_discard; [done|]. split; [by apply Hrec|]. naive_solver.
    + intros a k (Hak & Hn)%adjacent_discard; [|done].
      rewrite lookup_insert_is_Some. destruct (decide (u = k)); [by left|right].
      split; [done|]. by eapply Hclo.
Qed.

Lemma directed_reachable_shape g : reachable g → recorded g ∧ closed g.
Proof.
  induction 1 as [|g o _ IH].
  - split; intros u v (s & Hs & _); simpl in Hs; by rewrite lookup_empty in Hs.
  - by apply directed_call_shape.
Qed.

Lemma directed_on_adj_hoare (P Q E : t L → Prop) f :
  (∀ g d, P g → f (adj g) = inr d → Q (mk d (back_adj g) (number_of_edges g))) →
  (∀ g, P g → E g) →
  hoare P (on_adj f) (λ _, Q) E.
Proof.
  intros HQ HE g Hg. unfold on_adj.
  destruct (f (adj g)) as [e|d] eqn:Hf; simpl; eauto.
Qed.

Lemma directed_on_back_adj_hoare (P Q E : t L → Prop) f :
  (∀ g d, P g → f (back_adj g) = inr d → Q (mk (adj g) d (number_of_edges g))) →
  (∀ g, P g → E g) →
  hoare P (on_back_adj f) (λ _, Q) E.
Proof.
  intros HQ HE g Hg. unfold on_back_adj.
  destruct (f (back_adj g)) as [e|d] eqn:Hf; simpl; eauto.
Qed.

Lemma dict_discard_keys (d d' : gmap L (gset L)) a v k :
  dict_discard a v d = inr d' → is_Some (d' !! k) ↔ is_Some (d !! k).
Proof.
  unfold dict_discard, dict_getitem. destruct (d !! a) as [s|] eqn:E; [|done].
  intros [= <-]. rewrite lookup_insert_is_Some.
  destruct (decide (a = k)) as [<-|]; naive_solver.
Qed.

(** The entries of the two dictionaries across [remove_node]: a call that
    returns has deleted the entry of the label in [adj] and nothing else; a
    call that raises has deleted no entry. *)
Lemma directed_remove_node_entries label (d0 b0 : gmap L (gset L)) :
  hoare (λ g, (∀ k, is_Some (adj g !! k) ↔ is_Some (d0 !! k)) ∧
              (∀ k, is_Some (back_adj g !! k) ↔ is_Some (b0 !! k)))
    (remove_node label)
    (λ _ g, (∀ k, is_Some (adj g !! k) ↔ is_Some (d0 !! k) ∧ k ≠ label) ∧
            (∀ k, is_Some (back_adj g !! k) ↔ is_Some (b0 !! k)))
    (λ g, (∀ k, is_Some (adj g !! k) ↔ is_Some (d0 !! k)) ∧
          (∀ k, is_Some (back_adj g !! k) ↔ is_Some (b0 !! k))).
Proof.
  set (K := λ g : t L, (∀ k, is_Some (adj g !! k) ↔ is_Some (d0 !! k)) ∧
                       (∀ k, is_Some (back_adj g !! k) ↔ is_Some (b0 !! k))).
  assert (∀ a v, hoare K (on_adj (dict_discard a v)) (λ _, K) K) as Hadj.
  { intros a v. apply directed_on_adj_hoare; [|done].
    intros g d [Hd Hb] Hf. split; [|done]. intros k. simpl.
    by rewrite (dict_discard_keys _ _ _ _ _ Hf). }
  assert (∀ a v, hoare K (on_back_adj (dict_discard a v)) (λ _, K) K) as Hback.
  { intros a v. apply directed_on_back_adj_hoare; [|done].
    intros g d [Hd Hb] Hf. split; [done|]. intros k. simpl.
    by rewrite (dict_discard_keys _ _ _ _ _ Hf). }
  assert (∀ z, hoare K (bump z) (λ _, K) K) as Hbump.
  { intros z. apply hoare_modify. by intros g [Hd Hb]. }
  unfold remove_node.
  eapply hoare_bind; [apply hoare_gets|]. intros d. simpl.
  destruct (dict_contains label d); simpl.
  2:{ apply hoare_raise. naive_solver. }
  eapply hoare_bind; [apply hoare_gets|]. intros b. simpl.
  eapply hoare_bind; [apply hoare_of_result; naive_solver|]. intros parents. simpl.
  eapply hoare_bind.
  { eapply (hoare_conseq K _ _ (λ _, K) _ K); [naive_solver|intros a s Hs; exact Hs|done|].
    destruct (bool_decide (label ∈ parents)).
    - eapply hoare_bind; [apply Hadj|]. intros [].
      eapply hoare_bind; [apply Hback|]. intros []. apply Hbump.
    - eapply hoare_conseq; [| | |apply hoare_ret]; naive_solver. }
  intros []. simpl.
  eapply hoare_bind; [apply hoare_gets|]. intros b2. simpl.
  eapply hoare_bind; [apply hoare_of_result; naive_solver|]. intros parents2. simpl.
  eapply hoare_bind.
  { eapply hoare_conseq; [| | |apply (hoare_for (λ _, K) (elements parents2) _ K)];
      [naive_solver|intros a s Hs; exact Hs|done|].
    intros _ parent. eapply hoare_bind; [apply Hadj|]. intros []. apply Hbump. }
  intros []. simpl.
  eapply hoare_bind; [apply hoare_gets|]. intros d2. simpl.
  eapply hoare_bind; [apply hoare_of_result; naive_solver|]. intros children. simpl.
  eapply hoare_bind.
  { eapply (hoare_conseq K _ _ (λ _, K) _ K); [naive_solver|intros a s Hs; exact Hs|done|].
    apply Hbump. }
  intros []. simpl.
  apply directed_on_adj_hoare; [|done].
  intros g d' [Hd Hb]. unfold dict_del.
  destruct (adj g !! label) eqn:E; [|done]. intros [= <-]. simpl.
  split; [|done]. intros k. destruct (decide (k = label)) as [->|Hne].
  - rewrite lookup_delete_eq. split; [by intros [? [=]]|naive_solver].
  - rewrite lookup_delete_ne by done. rewrite Hd. naive_solver.
Qed.
End directed_reachable.

Section directed_remove_node_frame.
Context `{Countable L}.
Import DirectedGraph.
Implicit Types (g : t L) (o : op L) (u v a k x label : L).

(** The edges across [remove_node]: whether the call returns or raises, it
    adds no edge and removes only edges that touch the label. *)
Lemma directed_remove_node_edges label (d0 : gmap L (gset L)) :
  hoare (λ g, (∀ a v, adjacent (adj g) a v → adjacent d0 a v) ∧
              (∀ a v, adjacent d0 a v → a ≠ label → v ≠ label → adjacent (adj g) a v))
    (remove_node label)
    (λ _ g, (∀ a v, adjacent (adj g) a v → adjacent d0 a v) ∧
            (∀ a v, adjacent d0 a v → a ≠ label → v ≠ label → adjacent (adj g) a v))
    (λ g, (∀ a v, adjacent (adj g) a v → adjacent d0 a v) ∧
          (∀ a v, adjacent d0 a v → a ≠ label → v ≠ label → adjacent (adj g) a v)).
Proof.
  set (M := λ g : t L,
    (∀ a v, adjacent (adj g) a v → adjacent d0 a v) ∧
    (∀ a v, adjacent d0 a v → a ≠ label → v ≠ label → adjacent (adj g) a v)).
  assert (∀ a, hoare M (on_adj (dict_discard a label)) (λ _, M) M) as Hadj.
  { intros a. apply directed_on_adj_hoare; [|done].
    intros g d [Hsub Hkeep]. unfold dict_discard, dict_getitem.
    destruct (adj g !! a) as [s|] eqn:E; [|done]. intros [= <-]. split; simpl.
    - intros a' v (Hav & _)%adjacent_discard; [|done]. by apply Hsub.
    - intros a' v Hav Ha Hv. apply adjacent_discard; [done|]. naive_solver. }
  assert (∀ f, hoare M (on_back_adj f) (λ _, M) M) as Hback.
  { intros f. apply directed_on_back_adj_hoare; [|done]. by intros g d [Hsub Hkeep] _. }
  assert (∀ z, hoare M (bump z) (λ _, M) M) as Hbump.
  { intros z. apply hoare_modify. by intros g [Hsub Hkeep]. }
  unfold remove_node.
  eapply hoare_bind; [apply hoare_gets|]. intros d. simpl.
  destruct (dict_contains label d); simpl.
  2:{ apply hoare_raise. naive_solver. }
  eapply hoare_bind; [apply hoare_gets|]. intros b. simpl.
  eapply hoare_bind; [apply hoare_of_result; naive_solver|]. intros parents. simpl.
  eapply hoare_bind.
  { eapply (hoare_conseq M _ _ (λ _, M) _ M); [naive_solver|intros a s Hs; exact Hs|done|].
    destruct (bool_decide (label ∈ parents)).
    - eapply hoare_bind; [apply Hadj|]. intros [].
      eapply hoare_bind; [apply Hback|]. intros []. apply Hbump.
    - eapply hoare_conseq; [| | |apply hoare_ret]; naive_solver. }
  intros []. simpl.
  eapply hoare_bind; [apply hoare_gets|]. intros b2. simpl.
  eapply hoare_bind; [apply hoare_of_result; naive_solver|]. intros parents2. simpl.
  eapply hoare_bind.
  { eapply hoare_conseq; [| | |apply (hoare_for (λ _, M) (elements parents2) _ M)];
      [naive_solver|intros a s Hs; exact Hs|done|].
    intros _ parent. eapply hoare_bind; [apply Hadj|]. intros []. apply Hbump. }
  intros []. simpl.
  eapply hoare_bind; [apply hoare_gets|]. intros d2. simpl.
  eapply hoare_bind; [apply hoare_of_result; naive_solver|]. intros children. simpl.
  eapply hoare_bind.
  { eapply (hoare_conseq M _ _ (λ _, M) _ M); [naive_solver|intros a s Hs; exact Hs|done|].
    apply Hbump. }
  intros []. simpl.
  apply directed_on_adj_hoare; [|done].
  intros g d' [Hsub Hkeep]. unfold dict_del.
  destruct (adj g !! label) eqn:E; [|done]. intros [= <-]. split; simpl.
  - intros a v [Hav _]%adjacent_delete. by apply Hsub.
  - intros a v Hav Ha Hv. apply adjacent_delete. auto.
Qed.

Lemma directed_has_edge_adjacent g u v : has_edge g u v ↔ adjacent (adj g) u v.
Proof. apply edge_contains_true. Qed.

(** X8.  [remove_node] on a directed graph, in whatever state: it adds no
    edge and removes only edges that touch the label; it never changes which
    labels have an entry in [back_adj]; when it raises every node is still a
    node, and when it returns the label is the one node that is gone. *)
Theorem directed_remove_node_touches_only_its_label g label :
  (∀ a v, has_edge (remove_node label g).2 a v → has_edge g a v) ∧
  (∀ a v, has_edge g a v → a ≠ label → v ≠ label →
          has_edge (remove_node label g).2 a v) ∧
  (∀ k, dict_contains k (back_adj (remove_node label g).2)
        = dict_contains k (back_adj g)) ∧
  (∀ k, dict_contains k (adj (remove_node label g).2) = true
        ↔ dict_contains k (adj g) = true
          ∧ (k = label → ∃ e, (remove_node label g).1 = inl e)).
Proof.
  pose proof (directed_remove_node_edges label (adj g) g) as Hedges.
  pose proof (directed_remove_node_entries label (adj g) (back_adj g) g) as Hentries.
  assert ((∀ a v, adjacent (adj (remove_node label g).2) a v → adjacent (adj g) a v) ∧
          (∀ a v, adjacent (adj g) a v → a ≠ label → v ≠ label →
                  adjacent (adj (remove_node label g).2) a v)) as [Hsub Hkeep].
  { destruct (remove_node label g).1; apply Hedges; done. }
  split; [|split; [|split]].
  - intros a v. rewrite !directed_has_edge_adjacent. apply Hsub.
  - intros a v. rewrite !directed_has_edge_adjacent. apply Hkeep.
  - intros k. unfold dict_contains. apply bool_decide_ext.
    destruct (remove_node label g).1; apply Hentries; done.
  - intros k. rewrite !dict_contains_true.
    destruct (remove_node label g).1 as [e|[]] eqn:Hr.
    + destruct Hentries as [Hd _]; [done|]. rewrite Hd. naive_solver.
    + destruct Hentries as [Hd _]; [done|]. rewrite Hd. naive_solver.
Qed.
End directed_remove_node_frame.

(** ** Directed graphs: what the calls do *)

Section directed_calls_effects.
Context `{Countable L}.
Import DirectedGraph.
Implicit Types (g : t L) (o : op L) (u v a k x label : L).

(** X9.  On every directed graph built through the public calls, every edge of the
    edges view is recorded in the reverse mapping and joins two nodes. *)
Theorem directed_edges_are_recorded_between_nodes g :
  reachable g →
  ∀ u v, has_edge g u v →
    (∃ p, predecessors v g = (inr p, g) ∧ u ∈ p) ∧
    dict_contains u (adj g) = true ∧ dict_contains v (adj g) = true.
Proof.
  intros Hreach u v Huv%directed_has_edge_adjacent.
  destruct (directed_reachable_shape g Hreach) as [Hrec Hclo].
  split; [|split].
  - destruct (Hrec u v Huv) as (p & Hp & Hin). exists p. split; [|done].
    rewrite directed_predecessors_eq. unfold dict_getitem. by rewrite Hp.
  - apply dict_contains_true. by eapply adjacent_key.
  - apply dict_contains_true. by eapply Hclo.
Qed.

(** X10.  [add_edge u v] on a directed graph, in whatever state and also for
    [u = v]: it returns normally, makes [u] and [v] nodes with an entry in
    both mappings and removes none, adds the edge [(u, v)] and no other,
    records [u] among the predecessors of [v], and adds 1 to the counter. *)
Theorem directed_add_edge_adds_one_directed_edge g u v :
  (add_edge u v g).1 = inr () ∧
  (∀ a k, has_edge (add_edge u v g).2 a k ↔ has_edge g a k ∨ (a = u ∧ k = v)) ∧
  (∀ k, dict_contains k (adj (add_edge u v g).2) = true
        ↔ dict_contains k (adj g) = true ∨ k = u ∨ k = v) ∧
  (∀ k, dict_contains k (back_adj (add_edge u v g).2) = true
        ↔ dict_contains k (back_adj g) = true ∨ k = u ∨ k = v) ∧
  (∃ s, successors u (add_edge u v g).2 = (inr s, (add_edge u v g).2) ∧ v ∈ s) ∧
  (∃ p, predecessors v (add_edge u v g).2 = (inr p, (add_edge u v g).2) ∧ u ∈ p) ∧
  number_of_edges (add_edge u v g).2 = number_of_edges g + 1.
Proof.
  split; [apply directed_add_edge_counter|].
  split. { intros a k. rewrite !directed_has_edge_adjacent.
           apply directed_add_edge_adjacent. }
  split. { intros k. rewrite !dict_contains_true. apply directed_add_edge_keys. }
  split. { intros k. rewrite !dict_contains_true. apply directed_add_edge_keys. }
  split; [|split; [|apply directed_add_edge_counter]].
  - destruct (proj2 (proj1 (directed_add_edge_adjacent g u v u v))) as (s & Hs & Hin);
      [auto|].
    exists s. split; [|done]. rewrite directed_successors_eq.
    unfold dict_getitem. by rewrite Hs.
  - destruct (proj2 (proj2 (directed_add_edge_adjacent g u v v u))) as (p & Hp & Hin);
      [auto|].
    exists p. split; [|done]. rewrite directed_predecessors_eq.
    unfold dict_getitem. by rewrite Hp.
Qed.

(** X11.  [add_edge u v] followed by [remove_edge u v] on a directed graph, in
    whatever state: both return normally, the counter is back at its value,
    the edge [(u, v)] is not in the edges view (also when it was there
    before), and every other edge is as it was. *)
Theorem directed_add_then_remove_edge g u v :
  (remove_edge u v (add_edge u v g).2).1 = inr () ∧
  number_of_edges (remove_edge u v (add_edge u v g).2).2 = number_of_edges g ∧
  ¬ has_edge (remove_edge u v (add_edge u v g).2).2 u v ∧
  (∀ a k, ¬ (a = u ∧ k = v) →
          has_edge (remove_edge u v (add_edge u v g).2).2 a k ↔ has_edge g a k).
Proof.
  destruct (directed_add_edge_counter g u v) as [_ Hn].
  pose proof (directed_add_edge_adjacent g u v) as Hadj.
  destruct (proj2 (proj1 (Hadj u v))) as (su & Hu & Hin); [auto|].
  destruct (proj2 (proj2 (Hadj v u))) as (pv & Hv & _); [auto|].
  rewrite (directed_remove_edge_state _ u v su pv) by done. simpl.
  split; [done|]. split; [lia|]. split.
  - rewrite directed_has_edge_adjacent. simpl.
    intros (_ & Hno)%adjacent_discard; [|done]. naive_solver.
  - intros a k Hne. rewrite !directed_has_edge_adjacent. simpl.
    rewrite adjacent_discard by done. destruct (Hadj a k) as [-> _]. naive_solver.
Qed.

Lemma directed_foldl_consistent (calls : list (op L)) g :
  Forall (λ o, ∀ l, o ≠ RemoveNode l) calls → consistent g →
  consistent (foldl (λ g o, (call o g).2) g calls).
Proof.
  revert g. induction calls as [|o calls IH]; intros g Hcalls Hg; simpl; [done|].
  apply Forall_cons in Hcalls as [Ho Hcalls].
  apply IH; [done|]. by apply directed_call_consistent.
Qed.

(** X12.  A directed graph on which [remove_node] was never called has its two
    mappings in step: [v] is in [adj[u]] exactly when [u] is in
    [back_adj[v]]. *)
Theorem directed_without_remove_node_stays_consistent (calls : list (op L)) :
  Forall (λ o, ∀ l, o ≠ RemoveNode l) calls →
  ∀ u v, adjacent (adj (run calls)) u v ↔ adjacent (back_adj (run calls)) v u.
Proof.
  intros Hcalls. apply directed_foldl_consistent; [done|].
  intros u v. unfold adjacent. simpl. setoid_rewrite lookup_empty. naive_solver.
Qed.

(** X13.  [remove_node x] on a directed graph whose two mappings are in step and
    where [x] has an entry in both: it returns normally, [x] is no node any
    more and every other node stays, exactly the edges that touch [x] are
    gone, and the counter drops by the number of successors of [x] plus the
    number of its predecessors other than [x] itself, so that a self-loop is
    counted once. *)
Theorem directed_remove_node_on_consistent_graph g x (sx px : gset L) :
  consistent g → adj g !! x = Some sx → back_adj g !! x = Some px →
  ∃ g', remove_node x g = (inr (), g') ∧
        (∀ k, dict_contains k (adj g') = true
              ↔ dict_contains k (adj g) = true ∧ k ≠ x) ∧
        (∀ a k, has_edge g' a k ↔ has_edge g a k ∧ a ≠ x ∧ k ≠ x) ∧
        number_of_edges g'
        = number_of_edges g - Z.of_nat (size sx) - Z.of_nat (size (px ∖ {[x]})).
Proof.
  intros Hc Hx Hbx.
  assert (∀ p, p ∈ px ↔ adjacent (adj g) p x) as Hpx.
  { intros p. rewrite (Hc p x). unfold adjacent. rewrite Hbx. naive_solver. }
  destruct (directed_remove_node_spec g x sx px Hx Hbx) as (d' & b' & Heq & Hadj).
  { rewrite Hpx. unfold adjacent. rewrite Hx. naive_solver. }
  { intros p Hp%Hpx. by eapply adjacent_key. }
  pose proof (directed_remove_node_entries x (adj g) (back_adj g) g) as Hentries.
  rewrite Heq in Hentries. simpl in Hentries. destruct Hentries as [Hkeys _]; [done|].
  eexists. split; [exact Heq|]. split; [|split; [|done]].
  - intros k. rewrite !dict_contains_true. apply Hkeys.
  - intros a k. rewrite !directed_has_edge_adjacent. simpl. rewrite Hadj.
    split; [|naive_solver]. intros (Hak & Ha & Hn). split; [done|]. split; [done|].
    intros ->. apply Hn. split; [|done]. by apply Hpx.
Qed.


(** X15.  On every directed graph built through the public calls, a [remove_node]
    that returns leaves exactly the edges that do not touch the label, and the
    label is no node any more. *)
Theorem directed_remove_node_leaves_no_edge_at_the_label g label :
  reachable g → (remove_node label g).1 = inr () →
  dict_contains label (adj (remove_node label g).2) = false ∧
  (∀ a k, has_edge (remove_node label g).2 a k
          ↔ has_edge g a k ∧ a ≠ label ∧ k ≠ label).
Proof.
  intros Hreach Hret.
  assert (recorded (remove_node label g).2 ∧ closed (remove_node label g).2)
    as [_ Hclo].
  { pose proof (directed_remove_node_keeps_shape label g
                  (directed_reachable_shape g Hreach)) as Hs.
    by rewrite Hret in Hs. }
  pose proof (directed_remove_node_entries label (adj g) (back_adj g) g) as Hentries.
  rewrite Hret in Hentries. destruct Hentries as [Hkeys _]; [done|].
  pose proof (directed_remove_node_edges label (adj g) g) as Hedges.
  rewrite Hret in Hedges. destruct Hedges as [Hsub Hkeep]; [done|].
  assert (adj (remove_node label g).2 !! label = None) as Hgone.
  { apply eq_None_not_Some. rewrite Hkeys. naive_solver. }
  split; [by apply dict_contains_false|].
  intros a k. rewrite !directed_has_edge_adjacent. split.
  - intros Hak. split; [by apply Hsub|]. split; intros ->.
    + apply adjacent_key in Hak. rewrite Hgone in Hak. by destruct Hak.
    + apply Hclo in Hak. rewrite Hgone in Hak. by destruct Hak.
  - intros (Hak & Ha & Hk). by apply Hkeep.
Qed.
End directed_calls_effects.

(** ** Nodes: [add_node], [arbitrary_node] and the nodes view *)

Section nodes.
Context `{Countable L}.
Implicit Types (d : gmap L (gset L)) (k x label : L).

Lemma undirected_add_node_state (g : UndirectedGraph.t L) label :
  UndirectedGraph.add_node label g
  = (inr (), UndirectedGraph.mk (ensure (UndirectedGraph.adj g) label)
               (UndirectedGraph.number_of_edges g)).
Proof.
  destruct g as [d n].
  unfold UndirectedGraph.add_node, mbind, Exec_bind, gets, ensure. simpl.
  by destruct (dict_contains label d).
Qed.

Lemma ensure_present d x : dict_contains x d = true → ensure d x = d.
Proof. unfold ensure. by intros ->. Qed.

Lemma ensure_absent d x : dict_contains x d = false → ensure d x !! x = Some ∅.
Proof. unfold ensure. intros ->. apply lookup_insert_eq. Qed.

Lemma ensure_twice d x : ensure (ensure d x) x = ensure d x.
Proof.
  apply ensure_present, dict_contains_true, ensure_key. by right.
Qed.

Lemma dict_first_key_cases d :
  (d = ∅ ∧ dict_first_key d = inl StopIteration)
  ∨ (∃ k, dict_first_key d = inr k ∧ is_Some (d !! k)).
Proof.
  unfold dict_first_key. destruct (map_to_list d) as [|[k s] l] eqn:E; simpl.
  - left. split; [|done]. by apply map_to_list_empty_iff.
  - right. exists k. split; [done|]. exists s.
    apply elem_of_map_to_list. rewrite E. by left.
Qed.

(** X16.  [add_node] on either graph class, in whatever state: it returns
    normally, makes the label a node and removes none, changes no edge and
    not the counter (nor, on a directed graph, the reverse mapping), does
    nothing at all when the label is a node already, and gives a new node an
    empty set of neighbours; a second [add_node] of the same label changes
    nothing. *)
Theorem add_node_adds_at_most_one_isolated_node :
  (∀ (g : UndirectedGraph.t L) label,
     (UndirectedGraph.add_node label g).1 = inr () ∧
     (∀ k, dict_contains k (UndirectedGraph.adj (UndirectedGraph.add_node label g).2)
           = true
           ↔ dict_contains k (UndirectedGraph.adj g) = true ∨ k = label) ∧
     (∀ u v, UndirectedGraph.has_edge (UndirectedGraph.add_node label g).2 u v
             ↔ UndirectedGraph.has_edge g u v) ∧
     UndirectedGraph.number_of_edges (UndirectedGraph.add_node label g).2
     = UndirectedGraph.number_of_edges g ∧
     (dict_contains label (UndirectedGraph.adj g) = true →
        (UndirectedGraph.add_node label g).2 = g) ∧
     (dict_contains label (UndirectedGraph.adj g) = false →
        UndirectedGraph.neighbors label (UndirectedGraph.add_node label g).2
        = (inr ∅, (UndirectedGraph.add_node label g).2)) ∧
     (UndirectedGraph.add_node label (UndirectedGraph.add_node label g).2).2
     = (UndirectedGraph.add_node label g).2) ∧
  (∀ (g : DirectedGraph.t L) label,
     (DirectedGraph.add_node label g).1 = inr () ∧
     (∀ k, dict_contains k (DirectedGraph.adj (DirectedGraph.add_node label g).2)
           = true
           ↔ dict_contains k (DirectedGraph.adj g) = true ∨ k = label) ∧
     (∀ u v, DirectedGraph.has_edge (DirectedGraph.add_node label g).2 u v
             ↔ DirectedGraph.has_edge g u v) ∧
     DirectedGraph.number_of_edges (DirectedGraph.add_node label g).2
     = DirectedGraph.number_of_edges g ∧
     DirectedGraph.back_adj (DirectedGraph.add_node label g).2
     = DirectedGraph.back_adj g ∧
     (dict_contains label (DirectedGraph.adj g) = true →
        (DirectedGraph.add_node label g).2 = g) ∧
     (dict_contains label (DirectedGraph.adj g) = false →
        DirectedGraph.successors label (DirectedGraph.add_node label g).2
        = (inr ∅, (DirectedGraph.add_node label g).2)) ∧
     (DirectedGraph.add_node label (DirectedGraph.add_node label g).2).2
     = (DirectedGraph.add_node label g).2).
Proof.
  split; intros g label.
  - rewrite !undirected_add_node_state. simpl. rewrite ensure_twice.
    split; [done|]. split; [|split; [|split; [done|split; [|split; [|done]]]]].
    + intros k. rewrite !dict_contains_true. apply ensure_key.
    + intros u v. unfold UndirectedGraph.has_edge.
      rewrite !edge_contains_true. apply adjacent_ensure.
    + intros Hin. rewrite ensure_present by done. by destruct g.
    + intros Hout. rewrite undirected_neighbors_eq. simpl.
      unfold dict_getitem. by rewrite ensure_absent.
  - rewrite !directed_add_node_state. simpl. rewrite ensure_twice.
    split; [done|].
    split; [|split; [|split; [done|split; [done|split; [|split; [|done]]]]]].
    + intros k. rewrite !dict_contains_true. apply ensure_key.
    + intros u v. unfold DirectedGraph.has_edge.
      rewrite !edge_contains_true. apply adjacent_ensure.
    + intros Hin. rewrite ensure_present by done. by destruct g.
    + intros Hout. rewrite directed_successors_eq. simpl.
      unfold dict_getitem. by rewrite ensure_absent.
Qed.

(** X17.  [arbitrary_node] on either graph class, in whatever state: on a graph
    with no node it raises [DoesNotExistError], on any other graph it returns
    a label that is a node; the graph is left as it was. *)
Theorem arbitrary_node_returns_a_node :
  (∀ g : UndirectedGraph.t L,
     (UndirectedGraph.adj g = ∅ ∧
      UndirectedGraph.arbitrary_node g = (inl DoesNotExistError, g))
     ∨ (∃ l, UndirectedGraph.arbitrary_node g = (inr l, g) ∧
             dict_contains l (UndirectedGraph.adj g) = true)) ∧
  (∀ g : DirectedGraph.t L,
     (DirectedGraph.adj g = ∅ ∧
      DirectedGraph.arbitrary_node g = (inl DoesNotExistError, g))
     ∨ (∃ l, DirectedGraph.arbitrary_node g = (inr l, g) ∧
             dict_contains l (DirectedGraph.adj g) = true)).
Proof.
  split; intros g.
  - unfold UndirectedGraph.arbitrary_node, try_except, mbind, Exec_bind, gets, of_result.
    destruct (dict_first_key_cases (UndirectedGraph.adj g)) as [[He ->]|(k & -> & Hk)].
    + by left.
    + right. exists k. split; [done|]. by apply dict_contains_true.
  - unfold DirectedGraph.arbitrary_node, try_except, mbind, Exec_bind, gets, of_result.
    destruct (dict_first_key_cases (DirectedGraph.adj g)) as [[He ->]|(k & -> & Hk)].
    + by left.
    + right. exists k. split; [done|]. by apply dict_contains_true.
Qed.

(** X18.  The nodes view of either graph class: its iteration yields every node
    once and nothing else, and its length is the number of labels yielded. *)
Theorem nodes_view_iterates_each_node_once :
  (∀ g : UndirectedGraph.t L,
     ∃ ls, UndirectedGraph.call UndirectedGraph.NodesIter g = (inr (VLabels ls), g) ∧
           NoDup ls ∧
           (∀ x, x ∈ ls ↔ UndirectedGraph.call (UndirectedGraph.NodesContains x) g
                          = (inr (VBool true), g)) ∧
           UndirectedGraph.call UndirectedGraph.NodesLen g
           = (inr (VInt (Z.of_nat (length ls))), g)) ∧
  (∀ g : DirectedGraph.t L,
     ∃ ls, DirectedGraph.call DirectedGraph.NodesIter g = (inr (VLabels ls), g) ∧
           NoDup ls ∧
           (∀ x, x ∈ ls ↔ DirectedGraph.call (DirectedGraph.NodesContains x) g
                          = (inr (VBool true), g)) ∧
           DirectedGraph.call DirectedGraph.NodesLen g
           = (inr (VInt (Z.of_nat (length ls))), g)).
Proof.
  assert (∀ d x, x ∈ (map_to_list d).*1 ↔ dict_contains x d = true) as Hin.
  { intros d x. rewrite dict_contains_true, list_elem_of_fmap. split.
    - intros ([k s] & -> & Hks). apply elem_of_map_to_list in Hks. eauto.
    - intros [s Hs]. exists (x, s). split; [done|]. by apply elem_of_map_to_list. }
  assert (∀ d, length (map_to_list d).*1 = size d) as Hlen.
  { intros d. by rewrite length_fmap, length_map_to_list. }
  split; intros g.
  - exists (map_to_list (UndirectedGraph.adj g)).*1. split; [done|].
    split; [apply NoDup_fst_map_to_list|]. split.
    + intros x. rewrite Hin. unfold UndirectedGraph.call, mbind, Exec_bind, gets. simpl.
      split; [by intros ->|by intros [= ->]].
    + unfold UndirectedGraph.call, mbind, Exec_bind, gets. simpl. by rewrite Hlen.
  - exists (map_to_list (DirectedGraph.adj g)).*1. split; [done|].
    split; [apply NoDup_fst_map_to_list|]. split.
    + intros x. rewrite Hin. unfold DirectedGraph.call, mbind, Exec_bind, gets. simpl.
      split; [by intros ->|by intros [= ->]].
    + unfold DirectedGraph.call, mbind, Exec_bind, gets. simpl. by rewrite Hlen.
Qed.
End nodes.

(** ** Display *)

Section display_facts.
Context `{Countable L}.

Lemma _take_from_take {A} (i : Z) (xs : list A) (n : Z) :
  _take_from i xs n = take (Z.to_nat (n - i)) xs.
Proof.
  revert i. induction xs as [|x xs IH]; intros i; simpl.
  - by rewrite take_nil.
  - destruct (decide (n ≤ i)) as [Hle|Hgt].
    + by replace (Z.to_nat (n - i)) with 0%nat by lia.
    + replace (Z.to_nat (n - i)) with (Datatypes.S (Z.to_nat (n - (i + 1)))) by lia.
      simpl. by rewrite IH.
Qed.

(** X19.  [_take(iterable, n)] yields the first [n] elements of the iterable, in
    order: all of them when there are at most [n], none when [n] is zero or
    negative. *)
Theorem take_yields_the_first_n {A} (xs : list A) (n : Z) :
  _take xs n = take (Z.to_nat n) xs ∧
  (Z.of_nat (length xs) ≤ n → _take xs n = xs) ∧
  (n ≤ 0 → _take xs n = []).
Proof.
  assert (_take xs n = take (Z.to_nat n) xs) as Heq.
  { unfold _take. rewrite _take_from_take. f_equal. lia. }
  rewrite Heq. split; [done|]. split.
  - intros Hlen. apply take_ge. lia.
  - intros Hn. by replace (Z.to_nat n) with 0%nat by lia.
Qed.

(** X20.  The representation of a nodes view is the text [<N nodes: ...>]:
    [N] is the number of nodes, and the list holds the representations of the
    first 20 nodes of its iteration, that is of all of them when there are at
    most 20, separated by a comma and a space, followed by an ellipsis exactly
    when there are more than 20 nodes. *)
Theorem nodes_repr_prints_at_most_twenty (repr : L → string) (d : gmap L (gset L)) :
  NodesView_repr repr d
  = "<" +:+ pretty (Z.of_nat (size d)) +:+ " nodes: "
    +:+ (join ", " (repr <$> take 20 (map_to_list d).*1)
         +:+ (if decide (20 < size d)%nat then "..." else ""))
    +:+ ">" ∧
  length (take 20 (map_to_list d).*1) = (20 `min` size d)%nat ∧
  (∀ x, x ∈ take 20 (map_to_list d).*1 → dict_contains x d = true).
Proof.
  assert (length (map_to_list d).*1 = size d) as Hlen.
  { by rewrite length_fmap, length_map_to_list. }
  split; [|split].
  - unfold NodesView_repr, MAX_NODES_DISPLAYED. cbv zeta.
    destruct (decide (20 < size d)%nat) as [Hover|Hunder].
    + rewrite bool_decide_eq_true_2 by lia.
      unfold _take. rewrite _take_from_take. done.
    + rewrite bool_decide_eq_false_2 by lia.
      rewrite (take_ge (map_to_list d).*1 20) by lia. done.
  - by rewrite length_take, Hlen.
  - intros x Hx. apply (subseteq_take 20 (map_to_list d).*1) in Hx.
    apply list_elem_of_fmap in Hx as ([k s] & -> & Hks%elem_of_map_to_list).
    apply dict_contains_true. simpl. eauto.
Qed.
End display_facts.

Section undirected_display.
Context `{Countable L}.
Import UndirectedGraph.

(** X21.  On every undirected graph built through the public calls, the
    representation of the edges view is returned, no exception raised, and is
    the text [<N edges: ...>]: [N] is the number of edges its iteration
    yields, and the list holds the representations of the first 10 of them,
    that is of all of them when there are at most 10, separated by a comma and
    a space, followed by an ellipsis exactly when there are more than 10
    edges. *)
Theorem undirected_edges_repr_prints_at_most_ten (repr : L → string) (g : t L) :
  reachable g →
  EdgeView_repr repr (undirected_iter (adj g)) (number_of_edges g)
  = inr ("<" +:+ pretty (Z.of_nat (length (undirected_iter (adj g)))) +:+ " edges: "
         +:+ (join ", " (repr_edge repr <$> take 10 (undirected_iter (adj g)))
              +:+ (if decide (10 < length (undirected_iter (adj g)))%nat
                   then "..." else ""))
         +:+ ">").
Proof.
  intros Hreach. pose proof (undirected_reachable_counter g Hreach) as Hn.
  unfold EdgeView_repr, MAX_EDGES_DISPLAYED, builtin_len. rewrite Hn.
  rewrite decide_False by lia. cbv zeta.
  destruct (decide (10 < length (undirected_iter (adj g)))%nat) as [Hover|Hunder].
  - rewrite bool_decide_eq_true_2 by lia.
    unfold _take. rewrite _take_from_take. done.
  - rewrite bool_decide_eq_false_2 by lia.
    rewrite (take_ge (undirected_iter (adj g)) 10) by lia. done.
Qed.

(** X22.  On every undirected graph built through the public calls, the
    representation of the graph is returned, no exception raised, and names
    the number of nodes the nodes view iterates and the number of edges the
    edges view iterates. *)
Theorem undirected_graph_repr_counts_nodes_and_edges (g : t L) :
  reachable g →
  Graph_repr "UndirectedGraph" (adj g) (number_of_edges g)
  = inr ("<" +:+ "UndirectedGraph" +:+ " with "
         +:+ pretty (Z.of_nat (length (map_to_list (adj g)).*1))
         +:+ " nodes and "
         +:+ pretty (Z.of_nat (length (undirected_iter (adj g))))
         +:+ " edges>").
Proof.
  intros Hreach. pose proof (undirected_reachable_counter g Hreach) as Hn.
  unfold Graph_repr, builtin_len. rewrite Hn.
  rewrite decide_False by lia. cbv zeta.
  by rewrite length_fmap, length_map_to_list.
Qed.
End undirected_display.

(** * The further properties on concrete graphs, with integer labels *)

Section undirected_instances.
Import UndirectedGraph.

Local Abbreviation g0 := (__init__ (L:=Z)).
Local Abbreviation g12 := ((call (AddEdge 1 2) (__init__ (L:=Z))).2).

Lemma undirected_g12_reachable : reachable g12.
Proof. apply reachable_call, reachable_init. Qed.

(** After [add_edge(1, 2)] on a new graph the edge is there both ways. *)
Lemma undirected_symmetry_witness :
  reachable g12 ∧ (has_edge g12 1 2 ↔ has_edge g12 2 1).
Proof.
  split; [exact undirected_g12_reachable|].
  destruct (undirected_edges_are_symmetric_between_nodes g12 undirected_g12_reachable)
    as (Hsym & _ & _).
  apply Hsym.
Defined.

Lemma undirected_len_edges_witness :
  reachable g12 ∧
  ∃ es, call EdgesIter g12 = (inr (VEdges es), g12) ∧
        call EdgesLen g12 = (inr (VInt (Z.of_nat (length es))), g12) ∧
        0 ≤ number_of_edges g12.
Proof.
  split; [exact undirected_g12_reachable|].
  exact (undirected_len_edges_is_the_number_iterated g12 undirected_g12_reachable).
Defined.

(** [remove_node(1)] on a new graph raises and changes nothing. *)
Lemma undirected_failed_call_witness :
  reachable g0 ∧ (call (RemoveNode 1) g0).1 = inl DoesNotExistError ∧
  (call (RemoveNode 1) g0).2 = g0.
Proof.
  assert ((call (RemoveNode 1) g0).1 = inl DoesNotExistError) as He by reflexivity.
  split; [apply reachable_init|]. split; [exact He|].
  destruct (undirected_failed_call_changes_nothing g0 (RemoveNode 1) DoesNotExistError
              (reachable_init (L:=Z)) He) as [Hsame _].
  exact Hsame.
Defined.

Lemma undirected_add_edge_nodes_witness :
  reachable g0 ∧ (1 : Z) ≠ 2 ∧
  ∀ k, dict_contains k (adj (add_edge 1 2 g0).2) = true
       ↔ dict_contains k (adj g0) = true ∨ k = 1 ∨ k = 2.
Proof.
  assert ((1 : Z) ≠ 2) as Hne by lia.
  split; [apply reachable_init|]. split; [exact Hne|].
  destruct (undirected_add_edge_creates_nodes_and_one_edge g0 1 2
              (reachable_init (L:=Z)) Hne) as [Hnodes _].
  exact Hnodes.
Defined.

Lemma undirected_remove_edge_witness :
  reachable g12 ∧ has_edge g12 1 2 ∧
  ∃ g', remove_edge 1 2 g12 = (inr (), g') ∧ remove_edge 2 1 g12 = (inr (), g').
Proof.
  assert (has_edge g12 1 2) as Hedge by (vm_compute; reflexivity).
  split; [exact undirected_g12_reachable|]. split; [exact Hedge|].
  destruct (undirected_remove_edge_removes_both_orientations g12 1 2
              undirected_g12_reachable Hedge) as (g' & H1 & H2 & _).
  exists g'. split; assumption.
Defined.

Lemma undirected_remove_node_witness :
  reachable g12 ∧ adj g12 !! 1 = Some {[2]} ∧
  ∃ g', remove_node 1 g12 = (inr (), g') ∧
        number_of_edges g' = number_of_edges g12 - Z.of_nat (size ({[2]} : gset Z)).
Proof.
  assert (adj g12 !! 1 = Some {[2]}) as Hs by (vm_compute; reflexivity).
  split; [exact undirected_g12_reachable|]. split; [exact Hs|].
  destruct (undirected_remove_node_removes_its_edges g12 1 {[2]}
              undirected_g12_reachable Hs) as (g' & Hrun & _ & _ & Hn).
  exists g'. split; assumption.
Defined.

Lemma undirected_add_then_remove_witness :
  reachable g0 ∧ (1 : Z) ≠ 2 ∧ ¬ has_edge g0 1 2 ∧
  number_of_edges (remove_edge 1 2 (add_edge 1 2 g0).2).2 = number_of_edges g0.
Proof.
  assert ((1 : Z) ≠ 2) as Hne by lia.
  assert (¬ has_edge g0 1 2) as Hno by (intros He; vm_compute in He; discriminate).
  split; [apply reachable_init|]. split; [exact Hne|]. split; [exact Hno|].
  destruct (undirected_add_then_remove_edge_restores g0 1 2
              (reachable_init (L:=Z)) Hne Hno) as (_ & _ & _ & Hn).
  exact Hn.
Defined.

Lemma undirected_edges_repr_witness :
  reachable g12 ∧
  EdgeView_repr (pretty : Z → string) (undirected_iter (adj g12)) (number_of_edges g12)
  = inr ("<" +:+ pretty (Z.of_nat (length (undirected_iter (adj g12)))) +:+ " edges: "
         +:+ (join ", " (repr_edge pretty <$> take 10 (undirected_iter (adj g12)))
              +:+ (if decide (10 < length (undirected_iter (adj g12)))%nat
                   then "..." else ""))
         +:+ ">").
Proof.
  split; [exact undirected_g12_reachable|].
  exact (undirected_edges_repr_prints_at_most_ten pretty g12 undirected_g12_reachable).
Defined.

Lemma undirected_graph_repr_witness :
  reachable g12 ∧
  Graph_repr "UndirectedGraph" (adj g12) (number_of_edges g12)
  = inr ("<" +:+ "UndirectedGraph" +:+ " with "
         +:+ pretty (Z.of_nat (length (map_to_list (adj g12)).*1))
         +:+ " nodes and "
         +:+ pretty (Z.of_nat (length (undirected_iter (adj g12))))
         +:+ " edges>").
Proof.
  split; [exact undirected_g12_reachable|].
  exact (undirected_graph_repr_counts_nodes_and_edges g12 undirected_g12_reachable).
Defined.
End undirected_instances.

Section directed_instances.
Import DirectedGraph.

Lemma directed_recorded_witness :
  reachable (run [AddEdge 1 2]) ∧ has_edge (run [AddEdge 1 2]) 1 2 ∧
  ∃ p, predecessors 2 (run [AddEdge 1 2]) = (inr p, run [AddEdge 1 2]) ∧ 1 ∈ p.
Proof.
  assert (has_edge (run [AddEdge 1 2]) 1 2) as Hedge by (vm_compute; reflexivity).
  split; [apply directed_run_reachable|]. split; [exact Hedge|].
  destruct (directed_edges_are_recorded_between_nodes (run [AddEdge 1 2])
              (directed_run_reachable [AddEdge 1 2]) 1 2 Hedge) as [Hp _].
  exact Hp.
Defined.

Lemma directed_only_additions : Forall (λ o : op Z, ∀ l, o ≠ RemoveNode l) [AddEdge 1 2].
Proof. repeat constructor. intros l. discriminate. Qed.

Lemma directed_consistent_witness :
  Forall (λ o : op Z, ∀ l, o ≠ RemoveNode l) [AddEdge 1 2] ∧
  (adjacent (adj (run [AddEdge 1 2])) 1 2
   ↔ adjacent (back_adj (run [AddEdge 1 2])) 2 1).
Proof.
  split; [exact directed_only_additions|].
  exact (directed_without_remove_node_stays_consistent [AddEdge 1 2]
           directed_only_additions 1 2).
Defined.

Lemma directed_self_loop_graph_consistent : consistent (run [AddEdge 1 1; AddEdge 2 1]).
Proof.
  apply directed_foldl_consistent.
  - repeat constructor; intros l; discriminate.
  - intros u v. unfold adjacent. simpl. setoid_rewrite lookup_empty. naive_solver.
Qed.

(** [remove_node(1)] after [add_edge(1, 1)] and [add_edge(2, 1)]. *)
Lemma directed_remove_node_consistent_witness :
  consistent (run [AddEdge 1 1; AddEdge 2 1]) ∧
  adj (run [AddEdge 1 1; AddEdge 2 1]) !! 1 = Some {[1]} ∧
  back_adj (run [AddEdge 1 1; AddEdge 2 1]) !! 1 = Some {[1; 2]} ∧
  ∃ g', remove_node 1 (run [AddEdge 1 1; AddEdge 2 1]) = (inr (), g') ∧
        number_of_edges g'
        = number_of_edges (run [AddEdge 1 1; AddEdge 2 1])
          - Z.of_nat (size ({[1]} : gset Z))
          - Z.of_nat (size (({[1; 2]} : gset Z) ∖ {[1]})).
Proof.
  assert (adj (run [AddEdge 1 1; AddEdge 2 1]) !! 1 = Some {[1]}) as Hx
    by (vm_compute; reflexivity).
  assert (back_adj (run [AddEdge 1 1; AddEdge 2 1]) !! 1 = Some {[1; 2]}) as Hbx
    by (vm_compute; reflexivity).
  split; [exact directed_self_loop_graph_consistent|].
  split; [exact Hx|]. split; [exact Hbx|].
  destruct (directed_remove_node_on_consistent_graph _ 1 {[1]} {[1; 2]}
              directed_self_loop_graph_consistent Hx Hbx) as (g' & Hrun & _ & _ & Hn).
  exists g'. split; assumption.
Defined.


Lemma directed_remove_node_success_witness :
  reachable (run [AddEdge 1 2]) ∧
  (remove_node 1 (run [AddEdge 1 2])).1 = inr () ∧
  dict_contains 1 (adj (remove_node 1 (run [AddEdge 1 2])).2) = false.
Proof.
  assert ((remove_node 1 (run [AddEdge 1 2])).1 = inr ()) as Hret
    by (vm_compute; reflexivity).
  split; [apply directed_run_reachable|]. split; [exact Hret|].
  destruct (directed_remove_node_leaves_no_edge_at_the_label (run [AddEdge 1 2]) 1
              (directed_run_reachable [AddEdge 1 2]) Hret) as [Hgone _].
  exact Hgone.
Defined.
End directed_instances.
